(** * WarpX particle core: position push, position injection, buffer partition

    A shallow embedding of
    - [Source/Particles/Pusher/UpdatePosition.H],
    - [Source/Initialization/InjectorPosition.H],
    - [Source/Particles/Sorting/Partition.cpp].

    Conventions.
    - [amrex::Real] and [amrex::ParticleReal] (single or double precision,
      chosen at build time) are modelled by the real numbers [R] wherever the
      code does arithmetic on them: rounding, overflow and NaN are outside the
      model.  Where the code only moves such values around (the particle
      tile), the type is left abstract.
    - [int] and [long] are modelled by [Z]; array positions by [nat].
    - The preprocessor symbols [WARPX_DIM_3D], [WARPX_DIM_RZ], [WARPX_DIM_XZ]
      and [WARPX_DIM_1D_Z] become one value of the type [Dim], passed to every
      function whose body depends on them.

    The definitions come first, one module per source file; the properties
    follow, one module of facts per module of definitions. *)

From Stdlib Require Import ZArith Reals Lra Lia.
From stdpp Require Import base list sorting.

(** ** Spatial dimensionality *)

Inductive Dim : Type := DIM_3D | DIM_RZ | DIM_XZ | DIM_1D_Z.

(** [AMREX_SPACEDIM] for each build mode: RZ and XZ are two-dimensional
    builds of AMReX, 1D_Z a one-dimensional one. *)
Definition AMREX_SPACEDIM (d : Dim) : Z :=
  match d with
  | DIM_3D => 3
  | DIM_RZ | DIM_XZ => 2
  | DIM_1D_Z => 1
  end.

(** [defined(WARPX_DIM_3D) || defined(WARPX_DIM_RZ)] *)
Definition dim_3D_or_RZ (d : Dim) : bool :=
  match d with
  | DIM_3D | DIM_RZ => true
  | _ => false
  end.

(** ** Position push ([UpdatePosition.H]) *)

Module Pusher.
Section Pusher.
Local Open Scope R_scope.

(** [PhysConst::c], declared in [Utils/WarpXConst.H]. *)
Variable c : R.
Variable dim : Dim.

(** The three reference parameters [x], [y], [z] after the call. *)
Record Position : Type := mkPosition { pos_x : R; pos_y : R; pos_z : R }.

Definition inv_c2 : R := 1 / (c * c).

(** The three conditional [+=] statements, the same text in both pushers. *)
Definition push_axes (x y z ux uy uz inv_gamma dt : R) : Position :=
  {| pos_x := if (2 <=? AMREX_SPACEDIM dim)%Z then x + ux * inv_gamma * dt else x;
     pos_y := if dim_3D_or_RZ dim then y + uy * inv_gamma * dt else y;
     pos_z := z + uz * inv_gamma * dt |}.

Definition UpdatePosition (x y z ux uy uz dt : R) : Position :=
  let inv_gamma := 1 / sqrt (1 + (ux*ux + uy*uy + uz*uz) * inv_c2) in
  push_axes x y z ux uy uz inv_gamma dt.

Definition UpdatePositionImplicit
    (x y z ux_n uy_n uz_n ux uy uz dt : R) : Position :=
  let ux_np1 := 2 * ux - ux_n in
  let uy_np1 := 2 * uy - uy_n in
  let uz_np1 := 2 * uz - uz_n in
  let gamma_n := sqrt (1 + (ux_n*ux_n + uy_n*uy_n + uz_n*uz_n) * inv_c2) in
  let gamma_np1 :=
    sqrt (1 + (ux_np1*ux_np1 + uy_np1*uy_np1 + uz_np1*uz_np1) * inv_c2) in
  let inv_gamma := 2 / (gamma_n + gamma_np1) in
  push_axes x y z ux uy uz inv_gamma dt.

End Pusher.
End Pusher.

(** ** Position injection ([InjectorPosition.H]) *)

(** Comparisons of [amrex::Real] values, as booleans. *)
Definition Rltb (a b : R) : bool := if Rlt_dec a b then true else false.
Definition Rleb (a b : R) : bool := if Rle_dec a b then true else false.
Definition Rgtb (a b : R) : bool := Rltb b a.
Definition Rgeb (a b : R) : bool := Rleb b a.

Module Injector.

(** [amrex::XDim3]: three reals. *)
Record XDim3 : Type := mkXDim3 { xd_x : R; xd_y : R; xd_z : R }.

(** [amrex::Dim3]: three ints. *)
Record Dim3 : Type := mkDim3 { d3_x : Z; d3_y : Z; d3_z : Z }.

(** [amrex::IntVect]: [AMREX_SPACEDIM] ints, read with [operator[]].  The
    code only reads components below [AMREX_SPACEDIM]. *)
Definition IntVect : Type := list Z.
Definition iv_get (v : IntVect) (k : nat) : Z := nth k v 0%Z.

Section Sampling.
Local Open Scope R_scope.

Variable dim : Dim.

(** [amrex::RandomEngine] and [amrex::Random(engine)], a draw in [[0,1)] that
    advances the generator: both belong to AMReX. *)
Variable RandomEngine : Type.
Variable Random : RandomEngine -> R * RandomEngine.

(** Computations that draw from the generator. *)
Definition Rand (A : Type) : Type := RandomEngine -> A * RandomEngine.
Definition rand_ret {A} (a : A) : Rand A := fun e => (a, e).
Definition rand_bind {A B} (m : Rand A) (k : A -> Rand B) : Rand B :=
  fun e => let (a, e') := m e in k a e'.

Notation "'draw' x <- m ; k" := (rand_bind m (fun x => k))
  (at level 10, x name, m at level 99, k at level 200).

(** A braced initialiser list evaluates its elements left to right. *)
Definition InjectorPositionRandom_getPositionUnitBox
    (i_part : Z) (ref_fac : IntVect) : Rand XDim3 :=
  draw u <- Random; draw v <- Random; draw w <- Random;
  rand_ret (mkXDim3 u v w).

Definition InjectorPositionRandomPlane_getPositionUnitBox
    (dir : Z) (i_part : Z) (ref_fac : IntVect) : Rand XDim3 :=
  match dim with
  | DIM_3D | DIM_RZ =>
      if (dir =? 0)%Z then
        draw v <- Random; draw w <- Random; rand_ret (mkXDim3 0 v w)
      else if (dir =? 1)%Z then
        draw u <- Random; draw w <- Random; rand_ret (mkXDim3 u 0 w)
      else
        draw u <- Random; draw v <- Random; rand_ret (mkXDim3 u v 0)
  | DIM_XZ =>
      if (dir =? 0)%Z then
        draw v <- Random; rand_ret (mkXDim3 0 v 0)
      else if (dir =? 1)%Z then
        draw u <- Random; draw v <- Random; rand_ret (mkXDim3 u v 0)
      else
        draw u <- Random; rand_ret (mkXDim3 u 0 0)
  | DIM_1D_Z =>
      if (dir =? 0)%Z then
        draw u <- Random; rand_ret (mkXDim3 u 0 0)
      else if (dir =? 1)%Z then
        draw u <- Random; rand_ret (mkXDim3 u 0 0)
      else
        rand_ret (mkXDim3 0 0 0)
  end.

(** Points per cell along each component, for each build mode.  The
    products of [int]s are taken in [Z]: they are the products of the code
    whenever these lie in the range of [int] (see [regular_request_defined]
    below). *)
Definition regular_counts (ppc : Dim3) (ref_fac : IntVect) : Z * Z * Z :=
  match dim with
  | DIM_3D => (iv_get ref_fac 0 * d3_x ppc, iv_get ref_fac 1 * d3_y ppc,
               iv_get ref_fac 2 * d3_z ppc)%Z
  | DIM_RZ => (iv_get ref_fac 0 * d3_x ppc, iv_get ref_fac 1 * d3_y ppc,
               d3_z ppc)%Z
  | DIM_XZ => (iv_get ref_fac 0 * d3_x ppc, iv_get ref_fac 1 * d3_y ppc, 1)%Z
  | DIM_1D_Z => (iv_get ref_fac 0 * d3_x ppc, 1, 1)%Z
  end.

(** The index decomposition.  [/] on [int] truncates towards zero
    ([Z.quot]).  The code divides by [ny * nz] and by [ny]: where one of
    them is 0, or a value leaves the range of [int], the code has no defined
    result, while [Z.quot] is total; the statements about the regular
    injector keep away from there (see [regular_request_defined] and
    [index_int_values] below). *)
Definition ix_part (i_part ny nz : Z) : Z := (i_part ÷ (ny * nz))%Z.
Definition iz_part (i_part ny nz : Z) : Z :=
  ((i_part - ix_part i_part ny nz * (ny * nz)) ÷ ny)%Z.
Definition iy_part (i_part ny nz : Z) : Z :=
  ((i_part - ix_part i_part ny nz * (ny * nz)) - ny * iz_part i_part ny nz)%Z.

Definition InjectorPositionRegular_getPositionUnitBox
    (ppc : Dim3) (i_part : Z) (ref_fac : IntVect) : Rand XDim3 :=
  let '(nx, ny, nz) := regular_counts ppc ref_fac in
  rand_ret (mkXDim3 ((0.5 + IZR (ix_part i_part ny nz)) / IZR nx)
                    ((0.5 + IZR (iy_part i_part ny nz)) / IZR ny)
                    ((0.5 + IZR (iz_part i_part ny nz)) / IZR nz)).

(** The tag [Type] together with the [union Object] it discriminates. *)
Inductive Object : Type :=
  | random
  | randomplane (dir : Z)
  | regular (ppc : Dim3).

Record InjectorPosition : Type := mkInjectorPosition {
  object : Object;
  xmin : R; xmax : R;
  ymin : R; ymax : R;
  zmin : R; zmax : R }.

Definition getPositionUnitBox (inj : InjectorPosition)
    (i_part : Z) (ref_fac : IntVect) : Rand XDim3 :=
  match object inj with
  | regular ppc => InjectorPositionRegular_getPositionUnitBox ppc i_part ref_fac
  | randomplane dir =>
      InjectorPositionRandomPlane_getPositionUnitBox dir i_part ref_fac
  | random => InjectorPositionRandom_getPositionUnitBox i_part ref_fac
  end.

Definition insideBounds (inj : InjectorPosition) (x y z : R) : bool :=
  Rltb x (xmax inj) && Rgeb x (xmin inj) &&
  Rltb y (ymax inj) && Rgeb y (ymin inj) &&
  Rltb z (zmax inj) && Rgeb z (zmin inj).

Definition insideBoundsInclusive (inj : InjectorPosition) (x y z : R) : bool :=
  Rleb x (xmax inj) && Rgeb x (xmin inj) &&
  Rleb y (ymax inj) && Rgeb y (ymin inj) &&
  Rleb z (zmax inj) && Rgeb z (zmin inj).

Definition overlapsWith (inj : InjectorPosition) (lo hi : XDim3) : bool :=
  negb (Rgtb (xmin inj) (xd_x hi) || Rltb (xmax inj) (xd_x lo)
     || Rgtb (ymin inj) (xd_y hi) || Rltb (ymax inj) (xd_y lo)
     || Rgtb (zmin inj) (xd_z hi) || Rltb (zmax inj) (xd_z lo)).

(** Which components of the returned [XDim3] carry a coordinate of the
    simulated space: in 2D the first two components are [x] and [z], in 1D
    the first is [z]; in 3D and RZ all three are used. *)
Definition active_component (k : nat) : bool :=
  match dim with
  | DIM_3D | DIM_RZ => true
  | DIM_XZ => (k <? 2)%nat
  | DIM_1D_Z => (k <? 1)%nat
  end.

Definition component (p : XDim3) (k : nat) : R :=
  match k with
  | O => xd_x p
  | S O => xd_y p
  | _ => xd_z p
  end.

(** Every component that is not active in the build mode is 0. *)
Definition inactive_components_zero (p : XDim3) : Prop :=
  forall k : nat, (k < 3)%nat -> active_component k = false -> component p k = 0.

End Sampling.

(** All points whose three coordinates are taken from [vals]. *)
Definition lattice_points (vals : list R) : list XDim3 :=
  a ← vals; b ← vals; c ← vals; [mkXDim3 a b c].

(** A generator for examples: it always draws 1/2. *)
Definition const_engine : unit -> R * unit := fun e => (0.5%R, e).

(** A regular injector on the unit box. *)
Definition regular_unit_box (ppc : Dim3) : InjectorPosition :=
  mkInjectorPosition (regular ppc) 0 1 0 1 0 1.

(** The samples of the regular injector with two points per cell and axis,
    no refinement, in a 3D build, at particle numbers 0 to 7. *)
Definition regular_222_samples (RandomEngine : Type)
    (Random : RandomEngine -> R * RandomEngine) (engine : RandomEngine)
    : list XDim3 :=
  (fun i : nat =>
     fst (getPositionUnitBox DIM_3D RandomEngine Random
            (regular_unit_box (mkDim3 2 2 2)) (Z.of_nat i) [1; 1; 1]%Z engine))
  <$> seq 0 8.


(** *** The arithmetic of [int]

    [int] has 32 bits.  The definitions above compute in [Z]: they are what
    the code computes as long as every value of type [int] that the code
    forms lies in the range of [int] and no divisor is 0.  Outside of that
    the code has no defined result (signed overflow, division by zero). *)
Definition INT_MAX : Z := 2147483647.
Definition INT_MIN : Z := (-2147483648)%Z.
Definition in_int (z : Z) : Prop := (INT_MIN <= z <= INT_MAX)%Z.

(** The values of type [int] that lines 100 to 102 form, in program order:
    the divisor [ny * nz], [ix_part], the product and the difference inside
    [iz_part], [iz_part], the product inside [iy_part], [iy_part]. *)
Definition index_int_values (i_part ny nz : Z) : list Z :=
  [ (ny * nz)%Z;
    ix_part i_part ny nz;
    (ix_part i_part ny nz * (ny * nz))%Z;
    (i_part - ix_part i_part ny nz * (ny * nz))%Z;
    iz_part i_part ny nz;
    (ny * iz_part i_part ny nz)%Z;
    iy_part i_part ny nz ].






(** A plasma region that is the unit box, with the random strategy. *)
Definition random_unit_box : InjectorPosition :=
  mkInjectorPosition random 0 1 0 1 0 1.

End Injector.

(** ** Buffer partition ([Sorting/Partition.cpp]) *)

Module Sorting.

(** What the function asks of the accelerator stream, in program order. *)
Inductive Event : Type :=
  | EvGather (inds : list nat)   (* [amrex::gatherParticles(dst, src, np, inds)] *)
  | EvSwap                       (* [ptile.swap(ptile_tmp)] *)
  | EvStreamSynchronize.         (* [Gpu::streamSynchronize()] *)

Definition gathers (tr : list Event) : list (list nat) :=
  omap (fun e => match e with EvGather inds => Some inds | _ => None end) tr.

(** [iMultiFab const*]: the address of a mask field. *)
Definition MaskPtr : Type := nat.

Section Partition.

(** [amrex::ParticleReal]; the partition only moves such values. *)
Context {ParticleReal : Type} `{!Inhabited ParticleReal}.
(** The cell index type [amrex::IntVect] and [amrex::Geometry]. *)
Context {IntVect Geometry : Type}.

(** A particle tile in pure structure-of-arrays layout: the real attribute
    arrays (positions, weight, momenta, runtime reals), the integer attribute
    arrays and the id array, all of one length. *)
Record ParticleTile : Type := mkParticleTile {
  m_rdata : list (list ParticleReal);
  m_idata : list (list Z);
  m_idcpu : list Z }.

(** A mask field, read at a cell. *)
Definition iMultiFab : Type := IntVect -> Z.

(** The memory the mask pointers point into.  Reading through a null
    pointer is not modelled. *)
Variable mask_at : MaskPtr -> iMultiFab.

(** How a flag value is read: whether it says that the particle is in the
    buffer.  The mask builder and [SortingUtils.H], which fix the encoding,
    are not among the sources. *)
Variable in_buffer : Z -> bool.

(** [GetParticlePosition] of [Particles/Pusher/GetAndSetPosition.H] and
    [amrex::getParticleCell]. *)
Variable GetParticlePosition :
  ParticleTile -> nat -> ParticleReal * ParticleReal * ParticleReal.
Variable getParticleCell :
  Geometry -> ParticleReal * ParticleReal * ParticleReal -> IntVect.

(** [Geom(lev)] of the particle container. *)
Variable Geom : Z -> Geometry.

(** [WarpX::n_current_deposition_buffer], [WarpX::n_field_gather_buffer]
    (static members declared in [WarpX.H]) and the two policy members of
    [WarpXParticleContainer]. *)
Variable n_current_deposition_buffer n_field_gather_buffer : Z.
Variable m_deposit_on_main_grid m_gather_from_main_grid : bool.

(** [amrex::ParallelFor(n, f)]: [f(0)], ..., [f(n-1)], each acting on the
    captured array.  The iterations of both kernels below write different
    slots, so any schedule gives the result of the sequential one. *)
Definition ParallelFor {S : Type} (n : nat) (f : nat -> S -> S) (s : S) : S :=
  foldl (fun s i => f i s) s (seq 0 n).

(** The flag of one particle against one mask: the mask value at the cell
    the particle sits in. *)
Definition buffer_flag (pti : ParticleTile) (bmasks : MaskPtr)
    (geom : Geometry) (j : nat) : Z :=
  mask_at bmasks (getParticleCell geom (GetParticlePosition pti j)).

(** Modelled from the spec: the functor [fillBufferFlag] of [SortingUtils.H]
    is not among the sources.  Section 4.4: for each particle, resolve its
    cell from position and geometry, look up the mask value at that cell, and
    emit the flag; the flag of particle [i] goes to slot [i]. *)
Definition fillBufferFlag (pti : ParticleTile) (bmasks : MaskPtr)
    (geom : Geometry) (i : nat) (inexflag : list Z) : list Z :=
  <[ i := buffer_flag pti bmasks geom i ]> inexflag.

(** Modelled from the spec: the functor [fillBufferFlagRemainingParticles] of
    [SortingUtils.H] is not among the sources.  Section 4.5, step 5: only the
    particles listed in [particle_indices] from [start_index] on are looked
    up again; the flag of particle [j] goes to slot [j]. *)
Definition fillBufferFlagRemainingParticles (pti : ParticleTile)
    (bmasks : MaskPtr) (geom : Geometry) (particle_indices : list nat)
    (start_index : nat) (i : nat) (inexflag : list Z) : list Z :=
  match particle_indices !! (i + start_index)%nat with
  | Some j => <[ j := buffer_flag pti bmasks geom j ]> inexflag
  | None => inexflag
  end.

(** Modelled from the spec: [fillWithConsecutiveIntegers] of [SortingUtils.H]
    is not among the sources; it fills the vector with 0, 1, 2, ... *)
Definition fillWithConsecutiveIntegers (v : list nat) : list nat :=
  seq 0 (length v).

(** Modelled from the spec: [iteratorDistance] of [SortingUtils.H] is not
    among the sources; the number of slots from [first] to [last]. *)
Definition iteratorDistance (first last : nat) : Z :=
  Z.of_nat last - Z.of_nat first.

(** The entry of the flag array for particle [i] (0 outside the array, which
    the code never reads). *)
Definition flag_at (predicate : list Z) (i : nat) : Z :=
  default 0%Z (predicate !! i).

(** Modelled from the spec: [stablePartition] of [SortingUtils.H] is not among
    the sources.  Section 4.5, step 2, and the comments of [Partition.cpp]:
    the flag says whether the particle is in the buffer; the indices in
    [[first, last)] whose particle is not in the buffer move to the front of
    that range, the others to its back, each group in its former order; the
    result is the array and the position that separates the two groups. *)
Definition stablePartition (pid : list nat) (first last : nat)
    (predicate : list Z) : list nat * nat :=
  let seg := take (last - first) (drop first pid) in
  let fine := filter (fun i => ~ in_buffer (flag_at predicate i)) seg in
  let buffer := filter (fun i => in_buffer (flag_at predicate i)) seg in
  (take first pid ++ fine ++ buffer ++ drop last pid,
   (first + length fine)%nat).

(** Modelled from the spec: [amrex::gatherParticles] belongs to AMReX.
    Section 4.6: destination slot [k] holds the source data of slot [inds[k]],
    for every attribute array, [k] below [np].  The destination is the
    scratch tile [ptile_tmp], defined with the components of the container
    and resized to [np]; [ptile.swap(ptile_tmp)] then makes it the tile.  A
    read outside an array yields the default value; it does not occur when
    [inds] rearranges 0, ..., np-1 and the tile holds [np] particles. *)
Definition gather_array {A : Type} `{!Inhabited A}
    (src : list A) (np : nat) (inds : list nat) : list A :=
  (fun k => src !!! (inds !!! k)) <$> seq 0 np.

Definition gatherParticles (src : ParticleTile) (np : nat) (inds : list nat)
    : ParticleTile :=
  {| m_rdata := (fun a => gather_array a np inds) <$> m_rdata src;
     m_idata := (fun a => gather_array a np inds) <$> m_idata src;
     m_idcpu := gather_array (m_idcpu src) np inds |}.

(** A tile of [np] particles: every attribute array has [np] entries. *)
Definition tile_size (np : nat) (t : ParticleTile) : Prop :=
  Forall (fun a => length a = np) (m_rdata t)
  /\ Forall (fun a => length a = np) (m_idata t)
  /\ length (m_idcpu t) = np.

(** The variables of [PartitionParticlesInBuffers] at line 121, after the two
    partition passes: the two counts, the index array, the separator of the
    first pass and, when the second pass ran, its separator. *)
Record Passes : Type := mkPasses {
  ps_nfine_current : Z;
  ps_nfine_gather : Z;
  ps_pid : list nat;
  ps_sep : nat;
  ps_sep2 : option nat }.

(** Lines 61 to 121.  [nfine_current] and [nfine_gather] are references: the
    values they hold on entry are inputs.  The two temporary arrays start
    filled with 0; the first kernel and [fillWithConsecutiveIntegers] write
    every slot before any is read.  [bmasks == gather_masks] compares two
    pointers. *)
Definition PartitionPasses (nfine_current nfine_gather np : Z)
    (pti : ParticleTile) (lev : Z) (current_masks gather_masks : MaskPtr)
    : Passes :=
  let inexflag : list Z := replicate (Z.to_nat np) 0%Z in
  let pid : list nat := replicate (Z.to_nat np) 0%nat in
  let bmasks :=
    if (n_current_deposition_buffer <=? n_field_gather_buffer)%Z
    then gather_masks else current_masks in
  let inexflag :=
    ParallelFor (Z.to_nat np) (fillBufferFlag pti bmasks (Geom lev)) inexflag in
  let pid := fillWithConsecutiveIntegers pid in
  let '(pid, sep) := stablePartition pid 0 (length pid) inexflag in
  let n_fine := iteratorDistance 0 sep in
  if (n_current_deposition_buffer =? n_field_gather_buffer)%Z then
    mkPasses (iteratorDistance 0 sep) (iteratorDistance 0 sep) pid sep None
  else if (sep =? length pid)%nat then
    mkPasses np np pid sep None
  else
    let '(nfine_current, nfine_gather, bmasks, n_buf) :=
      if (bmasks =? gather_masks)%nat
      then (nfine_current, n_fine, current_masks, n_current_deposition_buffer)
      else (n_fine, nfine_gather, gather_masks, n_field_gather_buffer) in
    if (0 <? n_buf)%Z then
      let inexflag :=
        ParallelFor (Z.to_nat (np - n_fine))
          (fillBufferFlagRemainingParticles pti bmasks (Geom lev) pid
             (Z.to_nat n_fine)) inexflag in
      let '(pid, sep2) := stablePartition pid sep (length pid) inexflag in
      if (bmasks =? gather_masks)%nat
      then mkPasses nfine_current (iteratorDistance 0 sep2) pid sep (Some sep2)
      else mkPasses (iteratorDistance 0 sep2) nfine_gather pid sep (Some sep2)
    else mkPasses nfine_current nfine_gather pid sep None.

(** What the caller sees after the call. *)
Record Outcome : Type := mkOutcome {
  out_nfine_current : Z;
  out_nfine_gather : Z;
  out_pid : list nat;
  out_tile : ParticleTile;
  out_trace : list Event }.

(** Lines 123 to 129. *)
Definition override_current (lev : Z) : bool :=
  m_deposit_on_main_grid && (0 <? lev)%Z.
Definition override_gather (lev : Z) : bool :=
  m_gather_from_main_grid && (0 <? lev)%Z.

(** Line 132. *)
Definition must_reorder (nfine_current nfine_gather np : Z) : bool :=
  negb (nfine_current =? np)%Z || negb (nfine_gather =? np)%Z.

Definition PartitionParticlesInBuffers (nfine_current nfine_gather np : Z)
    (pti : ParticleTile) (lev : Z) (current_masks gather_masks : MaskPtr)
    : Outcome :=
  let ps := PartitionPasses nfine_current nfine_gather np pti lev
              current_masks gather_masks in
  let nfine_current :=
    if override_current lev then 0%Z else ps_nfine_current ps in
  let nfine_gather :=
    if override_gather lev then 0%Z else ps_nfine_gather ps in
  if must_reorder nfine_current nfine_gather np then
    mkOutcome nfine_current nfine_gather (ps_pid ps)
      (gatherParticles pti (Z.to_nat np) (ps_pid ps))
      [EvGather (ps_pid ps); EvSwap; EvStreamSynchronize; EvStreamSynchronize]
  else
    mkOutcome nfine_current nfine_gather (ps_pid ps) pti [EvStreamSynchronize].

(** *** The algorithm in the words of the specification *)

(** The particles of [l] that a mask leaves on the fine patch, and those it
    puts in the buffer, in the order of [l]. *)
Definition fine_of (pti : ParticleTile) (mask : MaskPtr) (lev : Z)
    (l : list nat) : list nat :=
  filter (fun i => ~ in_buffer (buffer_flag pti mask (Geom lev) i)) l.
Definition buffer_of (pti : ParticleTile) (mask : MaskPtr) (lev : Z)
    (l : list nat) : list nat :=
  filter (fun i => in_buffer (buffer_flag pti mask (Geom lev) i)) l.

(** Section 4.5, step 1: the buffer kind of larger width is primary, a tie
    goes to the gather buffer. *)
Definition gather_is_primary : bool :=
  (n_current_deposition_buffer <=? n_field_gather_buffer)%Z.
Definition primary_mask (current_masks gather_masks : MaskPtr) : MaskPtr :=
  if gather_is_primary then gather_masks else current_masks.
Definition other_mask (current_masks gather_masks : MaskPtr) : MaskPtr :=
  if gather_is_primary then current_masks else gather_masks.
Definition other_width : Z :=
  if gather_is_primary then n_current_deposition_buffer
  else n_field_gather_buffer.


(** Section 4.5, steps 1 to 5, sentence by sentence: the two fine counts
    ([nfine_current], [nfine_gather]) and the permutation. *)
Definition spec_TwoLevelPartition (np : Z) (pti : ParticleTile) (lev : Z)
    (current_masks gather_masks : MaskPtr) : Z * Z * list nat :=
  let all := seq 0 (Z.to_nat np) in
  let primary := primary_mask current_masks gather_masks in
  let other := other_mask current_masks gather_masks in
  let front := fine_of pti primary lev all in
  let back := buffer_of pti primary lev all in
  let n_fine := Z.of_nat (length front) in
  if (n_current_deposition_buffer =? n_field_gather_buffer)%Z then
    (n_fine, n_fine, front ++ back)
  else if (n_fine =? np)%Z then
    (np, np, front ++ back)
  else
    let back_fine := fine_of pti other lev back in
    let back_buffer := buffer_of pti other lev back in
    let n_other := (n_fine + Z.of_nat (length back_fine))%Z in
    if gather_is_primary
    then (n_other, n_fine, front ++ back_fine ++ back_buffer)
    else (n_fine, n_other, front ++ back_fine ++ back_buffer).

(** The three results of the two passes of the code, for comparison. *)
Definition passes_result (ps : Passes) : Z * Z * list nat :=
  (ps_nfine_current ps, ps_nfine_gather ps, ps_pid ps).

(** Two positions of the index array lie in the same output segment when no
    separator computed by the passes lies between them. *)
Definition separators (ps : Passes) : list nat :=
  ps_sep ps :: match ps_sep2 ps with Some s => [s] | None => [] end.
Definition same_segment (ps : Passes) (p q : nat) : Prop :=
  Forall (fun s => (p < s)%nat <-> (q < s)%nat) (separators ps).

(** *** What the caller reads off the result *)

(** Particle [i] is outside the buffer that a mask describes. *)
Definition on_fine_patch (pti : ParticleTile) (mask : MaskPtr) (lev : Z)
    (i : nat) : Prop :=
  ~ in_buffer (buffer_flag pti mask (Geom lev) i).

(** The returned count of the primary kind and that of the other kind, and
    whether the policy override of lines 124 to 129 applies to them. *)
Definition primary_count (out : Outcome) : Z :=
  if gather_is_primary then out_nfine_gather out else out_nfine_current out.
Definition other_count (out : Outcome) : Z :=
  if gather_is_primary then out_nfine_current out else out_nfine_gather out.
Definition primary_override (lev : Z) : bool :=
  if gather_is_primary then override_gather lev else override_current lev.
Definition other_override (lev : Z) : bool :=
  if gather_is_primary then override_current lev else override_gather lev.

(** The buffer of the other kind lies inside the buffer of the primary kind,
    as far as the [np] particles of the tile can tell: a particle outside
    the primary buffer is outside the other buffer. *)
Definition buffers_nested (np : Z) (pti : ParticleTile) (lev : Z)
    (current_masks gather_masks : MaskPtr) : Prop :=
  forall i : nat, i < Z.to_nat np ->
    on_fine_patch pti (primary_mask current_masks gather_masks) lev i ->
    on_fine_patch pti (other_mask current_masks gather_masks) lev i.

(** Section 4.4: a buffer kind whose width is zero is disabled, and no
    particle is in its buffer: the mask of a kind whose width is not
    positive flags no particle of the tile. *)
Definition disabled_masks_empty (np : Z) (pti : ParticleTile) (lev : Z)
    (current_masks gather_masks : MaskPtr) : Prop :=
  ((n_current_deposition_buffer <= 0)%Z ->
   forall i : nat, i < Z.to_nat np -> on_fine_patch pti current_masks lev i)
  /\
  ((n_field_gather_buffer <= 0)%Z ->
   forall i : nat, i < Z.to_nat np -> on_fine_patch pti gather_masks lev i).

(** What the partition expects of [GetParticlePosition]: it reads the
    position of a particle from the slot of that particle, so that in the
    gathered tile slot [k] has the position that slot [inds[k]] had. *)
Definition positions_follow_gather (np : nat) (pti : ParticleTile) : Prop :=
  forall (inds : list nat) (k j : nat),
    inds !! k = Some j -> k < np -> j < np ->
    GetParticlePosition (gatherParticles pti np inds) k
    = GetParticlePosition pti j.

(** Every attribute array of [t'] is a rearrangement of the same array of
    [t]. *)
Definition same_particles (t t' : ParticleTile) : Prop :=
  Forall2 (≡ₚ) (m_rdata t') (m_rdata t)
  /\ Forall2 (≡ₚ) (m_idata t') (m_idata t)
  /\ m_idcpu t' ≡ₚ m_idcpu t.

End Partition.

(** *** A small concrete setting

    Particles on a line of integer cells: the position of a particle is its
    cell, the deposition mask lives at address 1 and the gather mask at
    address 2, each given by the list of the cells it flags as buffer, with
    value 1; a flag says "in the buffer" when it is not 0. *)

Definition line_in_buffer (flag : Z) : bool := negb (flag =? 0)%Z.

Definition line_tile (cells : list Z) : @ParticleTile Z :=
  {| m_rdata := [cells];
     m_idata := [];
     m_idcpu := Z.of_nat <$> seq 1 (length cells) |}.

Definition line_position (pti : @ParticleTile Z) (i : nat) : Z * Z * Z :=
  (default 0%Z (m_rdata pti !! 0%nat ≫= fun a => a !! i), 0%Z, 0%Z).

Definition line_cell (geom : unit) (pos : Z * Z * Z) : Z := pos.1.1.

Definition line_masks (current_cells gather_cells : list Z)
    (p : MaskPtr) (cell : Z) : Z :=
  if (p =? 1)%nat then (if bool_decide (cell ∈ current_cells) then 1 else 0)%Z
  else if (p =? 2)%nat then (if bool_decide (cell ∈ gather_cells) then 1 else 0)%Z
  else 0%Z.

(** [PartitionParticlesInBuffers] and its two passes in that setting; the
    widths, the policy flags and the flagged cells stay free. *)
Definition line_passes (current_cells gather_cells : list Z)
    (Wc Wg : Z) (nfine_current nfine_gather : Z) (cells : list Z) : Passes :=
  PartitionPasses (line_masks current_cells gather_cells)
    line_in_buffer line_position line_cell (fun _ => tt) Wc Wg
    nfine_current nfine_gather (Z.of_nat (length cells)) (line_tile cells)
    0%Z 1%nat 2%nat.

Definition line_spec (current_cells gather_cells : list Z)
    (Wc Wg : Z) (cells : list Z) : Z * Z * list nat :=
  spec_TwoLevelPartition (line_masks current_cells gather_cells)
    line_in_buffer line_position line_cell (fun _ => tt) Wc Wg
    (Z.of_nat (length cells)) (line_tile cells) 0%Z 1%nat 2%nat.

Definition line_partition (current_cells gather_cells : list Z)
    (Wc Wg : Z) (deposit_on_main gather_from_main : bool) (lev : Z)
    (nfine_current nfine_gather : Z) (cells : list Z) : @Outcome Z :=
  PartitionParticlesInBuffers (line_masks current_cells gather_cells)
    line_in_buffer line_position line_cell (fun _ => tt) Wc Wg
    deposit_on_main gather_from_main
    nfine_current nfine_gather (Z.of_nat (length cells)) (line_tile cells)
    lev 1%nat 2%nat.

End Sorting.

(** * Properties *)

(** ** The two pushers *)

Module PusherFacts.
Import Pusher.
Local Open Scope R_scope.

(** The averaged inverse Lorentz factor of two equal factors is the inverse of
    that factor (also at 0, where [/ 0 = 0]). *)
Lemma inv_gamma_avg_diag (g : R) : 2 / (g + g) = 1 / g.
Proof.
  destruct (Req_dec g 0) as [-> | Hg].
  - rewrite Rplus_0_r. unfold Rdiv. rewrite Rinv_0. lra.
  - field. split; [exact Hg | lra].
Qed.

Lemma np1_diag (u : R) : 2 * u - u = u.
Proof. ring. Qed.

(** With zero momentum the explicit push leaves the position where it is. *)
Lemma UpdatePosition_at_rest (c : R) (dim : Dim) (x y z dt : R) :
  UpdatePosition c dim x y z 0 0 0 dt = mkPosition x y z.
Proof.
  unfold UpdatePosition, push_axes.
  destruct (2 <=? AMREX_SPACEDIM dim)%Z, (dim_3D_or_RZ dim); f_equal; ring.
Qed.

(** C9: when the momentum at the start of the step equals the momentum at the
    middle of the step, the implicit (Crank-Nicolson) push returns the
    position the explicit push returns for that momentum, in every build
    mode and for every speed of light. *)
Theorem UpdatePositionImplicit_same_momentum
    (c : R) (dim : Dim) (x y z ux uy uz dt : R) :
  UpdatePositionImplicit c dim x y z ux uy uz ux uy uz dt
  = UpdatePosition c dim x y z ux uy uz dt.
Proof.
  unfold UpdatePositionImplicit, UpdatePosition.
  rewrite !np1_diag.
  rewrite inv_gamma_avg_diag.
  reflexivity.
Qed.


(** *** Coordinates that stay where they are *)

(** The build modes differ only in the coordinates they write.  The RZ
    build pushes like the 3D build; the 2D build returns the 3D result with
    [y] left at its input value, the 1D build with [x] and [y] left at their
    input values.  The Lorentz factor uses all three momentum components in
    every mode. *)
Lemma pushers_reduced_modes (c : R)
    (x y z ux_n uy_n uz_n ux uy uz dt : R) :
  let p dim := UpdatePosition c dim x y z ux uy uz dt in
  let q dim := UpdatePositionImplicit c dim x y z ux_n uy_n uz_n ux uy uz dt in
  (p DIM_RZ = p DIM_3D /\ q DIM_RZ = q DIM_3D)
  /\ (p DIM_XZ = mkPosition (pos_x (p DIM_3D)) y (pos_z (p DIM_3D))
      /\ q DIM_XZ = mkPosition (pos_x (q DIM_3D)) y (pos_z (q DIM_3D)))
  /\ (p DIM_1D_Z = mkPosition x y (pos_z (p DIM_3D))
      /\ q DIM_1D_Z = mkPosition x y (pos_z (q DIM_3D))).
Proof. repeat split. Qed.

(** What either pusher adds to a coordinate is a multiple of the momentum
    component along it. *)
Lemma push_axes_zero_component (dim : Dim) (x y z ux uy uz inv_gamma dt : R) :
  (ux = 0 -> pos_x (push_axes dim x y z ux uy uz inv_gamma dt) = x)
  /\ (uy = 0 -> pos_y (push_axes dim x y z ux uy uz inv_gamma dt) = y)
  /\ (uz = 0 -> pos_z (push_axes dim x y z ux uy uz inv_gamma dt) = z).
Proof.
  unfold push_axes. cbn [pos_x pos_y pos_z].
  destruct (2 <=? AMREX_SPACEDIM dim)%Z, (dim_3D_or_RZ dim);
    repeat split; intros ->; try reflexivity; ring.
Qed.

(** X1: a particle does not move along an axis on which it has no momentum.
    For [c <> 0], every build mode and every time step: if a component of
    the momentum given to [UpdatePosition], or of the mid-step momentum
    given to [UpdatePositionImplicit], is 0, the coordinate along it comes
    back as it was passed in, whatever the other components (and, for the
    implicit pusher, the start-of-step momentum) are.  With all three
    components 0 the position is unchanged. *)
Theorem pushers_zero_component (c : R) (dim : Dim)
    (x y z ux_n uy_n uz_n ux uy uz dt : R) :
  c <> 0 ->
  let p := UpdatePosition c dim x y z ux uy uz dt in
  let q := UpdatePositionImplicit c dim x y z ux_n uy_n uz_n ux uy uz dt in
  (ux = 0 -> pos_x p = x /\ pos_x q = x)
  /\ (uy = 0 -> pos_y p = y /\ pos_y q = y)
  /\ (uz = 0 -> pos_z p = z /\ pos_z q = z)
  /\ (ux = 0 -> uy = 0 -> uz = 0 ->
      p = mkPosition x y z /\ q = mkPosition x y z).
Proof.
  intros _ p q. subst p q. unfold UpdatePosition, UpdatePositionImplicit.
  cbv zeta.
  set (ig := 1 / sqrt _). set (ig' := 2 / (sqrt _ + sqrt _)).
  destruct (push_axes_zero_component dim x y z ux uy uz ig dt)
    as (Hx & Hy & Hz).
  destruct (push_axes_zero_component dim x y z ux uy uz ig' dt)
    as (Hx' & Hy' & Hz').
  split; [intros H; split; auto |].
  split; [intros H; split; auto |].
  split; [intros H; split; auto |].
  intros -> -> ->. unfold push_axes.
  destruct (2 <=? AMREX_SPACEDIM dim)%Z, (dim_3D_or_RZ dim);
    split; f_equal; ring.
Qed.

(** The speed of light in SI units, a 2D build, momentum along [z] only. *)
Lemma pushers_zero_component_witness :
  pos_x (UpdatePosition 299792458 DIM_XZ 1 2 3 0 0 5 (1/2)) = 1
  /\ pos_x (UpdatePositionImplicit 299792458 DIM_XZ 1 2 3 4 0 1 0 0 5 (1/2)) = 1.
Proof.
  apply (proj1 (pushers_zero_component 299792458 DIM_XZ 1 2 3 4 0 1 0 0 5 (1/2)
                  ltac:(lra))).
  reflexivity.
Defined.

End PusherFacts.

(** ** Position injection *)

Module InjectorFacts.
Import Injector.
Local Open Scope R_scope.

Lemma Rltb_true (a b : R) : Rltb a b = true <-> a < b.
Proof. unfold Rltb. destruct (Rlt_dec a b); split; intros; try lra; congruence. Qed.

Lemma Rltb_false (a b : R) : Rltb a b = false <-> b <= a.
Proof. unfold Rltb. destruct (Rlt_dec a b); split; intros; try lra; congruence. Qed.

Lemma Rgtb_true (a b : R) : Rgtb a b = true <-> a > b.
Proof. unfold Rgtb. rewrite Rltb_true. reflexivity. Qed.

Lemma Rgtb_false (a b : R) : Rgtb a b = false <-> a <= b.
Proof. unfold Rgtb. rewrite Rltb_false. reflexivity. Qed.

Lemma Rleb_true (a b : R) : Rleb a b = true <-> a <= b.
Proof. unfold Rleb. destruct (Rle_dec a b); split; intros; try lra; congruence. Qed.

(** The half-open test implies the closed one. *)
Lemma insideBounds_inclusive (inj : InjectorPosition) (x y z : R) :
  insideBounds inj x y z = true -> insideBoundsInclusive inj x y z = true.
Proof.
  unfold insideBounds, insideBoundsInclusive, Rgeb.
  rewrite !andb_true_iff, !Rltb_true, !Rleb_true. lra.
Qed.

(** C10: [overlapsWith] answers false exactly when, on some axis, the region
    starts strictly above the top of the query box or ends strictly below
    its bottom; so it answers true as soon as the closed intervals meet on
    every axis, also when they only touch. *)
Theorem overlapsWith_strict_separation
    (inj : InjectorPosition) (lo hi : XDim3) :
  (overlapsWith inj lo hi = false <->
     xmin inj > xd_x hi \/ xmax inj < xd_x lo \/
     ymin inj > xd_y hi \/ ymax inj < xd_y lo \/
     zmin inj > xd_z hi \/ zmax inj < xd_z lo)
  /\
  (xmin inj <= xd_x hi /\ xd_x lo <= xmax inj /\
   ymin inj <= xd_y hi /\ xd_y lo <= ymax inj /\
   zmin inj <= xd_z hi /\ xd_z lo <= zmax inj ->
   overlapsWith inj lo hi = true).
Proof.
  unfold overlapsWith. split.
  - rewrite negb_false_iff, !orb_true_iff, !Rgtb_true, !Rltb_true. tauto.
  - intros (H1 & H2 & H3 & H4 & H5 & H6).
    rewrite negb_true_iff, !orb_false_iff, !Rgtb_false, !Rltb_false. tauto.
Qed.

(** The unit box and a box whose top face lies in the plane [x = 0] of the
    region's bottom face: they share that face only, and overlap. *)
Lemma overlapsWith_strict_separation_witness :
  overlapsWith (regular_unit_box (mkDim3 1 1 1))
    (mkXDim3 (-1) 0 0) (mkXDim3 0 1 1) = true.
Proof.
  apply (proj2 (overlapsWith_strict_separation
                  (regular_unit_box (mkDim3 1 1 1))
                  (mkXDim3 (-1) 0 0) (mkXDim3 0 1 1))).
  simpl. lra.
Defined.

Lemma xdim3_eq (a b c a' b' c' : R) :
  a = a' -> b = b' -> c = c' -> mkXDim3 a b c = mkXDim3 a' b' c'.
Proof. intros -> -> ->. reflexivity. Qed.








(** The random injector has no mode-dependent code: in a 2D build its third
    component is a draw like the others. *)
Lemma random_collapsed_axis_is_a_draw :
  ~ inactive_components_zero DIM_XZ
      (fst (getPositionUnitBox DIM_XZ unit const_engine
              (mkInjectorPosition random 0 1 0 1 0 1) 0 [1; 1]%Z tt)).
Proof.
  intros H. specialize (H 2%nat ltac:(lia) eq_refl).
  cbv [getPositionUnitBox object InjectorPositionRandom_getPositionUnitBox
       rand_bind rand_ret const_engine fst component xd_z] in H.
  lra.
Qed.

Ltac eval_index_parts :=
  repeat match goal with
         | |- context [IZR ?n] =>
             progress (let n' := eval vm_compute in n in change n with n')
         end.

(** The eight samples, in the order of the particle numbers. *)
Lemma regular_222_samples_list (RandomEngine : Type)
    (Random : RandomEngine -> R * RandomEngine) (engine : RandomEngine) :
  regular_222_samples RandomEngine Random engine =
  [ mkXDim3 0.25 0.25 0.25; mkXDim3 0.25 0.75 0.25;
    mkXDim3 0.25 0.25 0.75; mkXDim3 0.25 0.75 0.75;
    mkXDim3 0.75 0.25 0.25; mkXDim3 0.75 0.75 0.25;
    mkXDim3 0.75 0.25 0.75; mkXDim3 0.75 0.75 0.75 ].
Proof.
  unfold regular_222_samples. cbn [fmap list_fmap seq].
  unfold getPositionUnitBox, regular_unit_box, object,
    InjectorPositionRegular_getPositionUnitBox, regular_counts, rand_ret, fst.
  repeat (apply (f_equal2 cons);
          [apply xdim3_eq; eval_index_parts; lra |]).
  reflexivity.
Qed.

Lemma lattice_quarters :
  lattice_points [0.25; 0.75] =
  [ mkXDim3 0.25 0.25 0.25; mkXDim3 0.25 0.25 0.75;
    mkXDim3 0.25 0.75 0.25; mkXDim3 0.25 0.75 0.75;
    mkXDim3 0.75 0.25 0.25; mkXDim3 0.75 0.25 0.75;
    mkXDim3 0.75 0.75 0.25; mkXDim3 0.75 0.75 0.75 ].
Proof. reflexivity. Qed.

Lemma xdim3_neq (a b c a' b' c' : R) :
  a <> a' \/ b <> b' \/ c <> c' -> mkXDim3 a b c <> mkXDim3 a' b' c'.
Proof. intros H [= -> -> ->]. tauto. Qed.

Lemma quarters_distinct : 0.25 <> 0.75 /\ 0.75 <> 0.25.
Proof. split; lra. Qed.

Lemma lattice_quarters_NoDup : NoDup (lattice_points [0.25; 0.75]).
Proof.
  rewrite lattice_quarters. destruct quarters_distinct as [H1 H2].
  repeat (apply NoDup_cons; split;
          [rewrite ?elem_of_cons, elem_of_nil;
           intros H; repeat (destruct H as [H | H]; [apply xdim3_neq in H; [exact H | tauto] |]); exact H
          |]).
  apply NoDup_nil. exact I.
Qed.

(** C8: the regular injector with two points per cell and axis, refinement
    factor (1,1,1), 3D build, gives at particle numbers 0 to 7 eight points
    with every coordinate 0.25 or 0.75, and these eight points are the eight
    points of the lattice [{0.25,0.75}^3], each once. *)
Theorem regular_222_covers_lattice (RandomEngine : Type)
    (Random : RandomEngine -> R * RandomEngine) (engine : RandomEngine) :
  length (regular_222_samples RandomEngine Random engine) = 8%nat
  /\ Forall (fun p => forall k : nat, component p k = 0.25 \/ component p k = 0.75)
       (regular_222_samples RandomEngine Random engine)
  /\ regular_222_samples RandomEngine Random engine
       ≡ₚ lattice_points [0.25; 0.75]
  /\ NoDup (lattice_points [0.25; 0.75]).
Proof.
  split; [reflexivity |]. split; [| split].
  - rewrite regular_222_samples_list.
    repeat (apply Forall_cons; split;
            [intros [| [| k]]; cbn [component xd_x xd_y xd_z]; tauto |]).
    apply Forall_nil. exact I.
  - rewrite regular_222_samples_list, lattice_quarters.
    apply perm_skip. etransitivity; [apply perm_swap |]. do 4 apply perm_skip.
    etransitivity; [apply perm_swap |]. reflexivity.
  - apply lattice_quarters_NoDup.
Qed.


(** *** The index decomposition of the regular injector *)

(** For positive counts and a particle number that is not negative, the
    truncating divisions of the code are the floor divisions. *)
Lemma index_parts_div (i ny nz : Z) :
  (0 < ny)%Z -> (0 < nz)%Z -> (0 <= i)%Z ->
  ix_part i ny nz = (i / (ny * nz))%Z
  /\ iz_part i ny nz = ((i mod (ny * nz)) / ny)%Z
  /\ iy_part i ny nz = ((i mod (ny * nz)) mod ny)%Z.
Proof.
  intros Hy Hz Hi. unfold iy_part, iz_part, ix_part.
  assert (Hyz : (0 < ny * nz)%Z) by nia.
  rewrite (Z.quot_div_nonneg i (ny * nz)) by lia.
  assert (Hr : (i - i / (ny * nz) * (ny * nz) = i mod (ny * nz))%Z)
    by (rewrite Z.mod_eq by lia; ring).
  rewrite Hr.
  pose proof (Z.mod_pos_bound i (ny * nz) Hyz) as Hb.
  rewrite (Z.quot_div_nonneg (i mod (ny * nz)) ny) by lia.
  repeat split; try reflexivity.
  rewrite (Z.mod_eq (i mod (ny * nz)) ny) by lia. ring.
Qed.

Lemma index_parts_bounds (i ny nz : Z) :
  (0 < ny)%Z -> (0 < nz)%Z -> (0 <= i)%Z ->
  (0 <= ix_part i ny nz
   /\ 0 <= iy_part i ny nz < ny
   /\ 0 <= iz_part i ny nz < nz
   /\ i = ix_part i ny nz * (ny * nz) + iz_part i ny nz * ny
          + iy_part i ny nz)%Z.
Proof.
  intros Hy Hz Hi.
  destruct (index_parts_div i ny nz Hy Hz Hi) as (-> & -> & ->).
  assert (Hyz : (0 < ny * nz)%Z) by nia.
  pose proof (Z.mod_pos_bound i (ny * nz) Hyz) as Hb.
  pose proof (Z.mod_pos_bound (i mod (ny * nz)) ny Hy) as Hb'.
  repeat split; try lia.
  - apply Z.div_pos; lia.
  - apply Z.div_pos; lia.
  - apply Z.div_lt_upper_bound; lia.
  - rewrite (Z.div_mod i (ny * nz)) at 1 by lia.
    rewrite (Z.div_mod (i mod (ny * nz)) ny) at 1 by lia. ring.
Qed.


(** Under the conditions of the decomposition no value of type [int] leaves
    the range of [int], and neither divisor is 0. *)
Lemma index_values_in_int (i ny nz : Z) :
  (0 < ny)%Z -> (0 < nz)%Z -> (ny * nz <= INT_MAX)%Z ->
  (0 <= i <= INT_MAX)%Z ->
  Forall in_int (index_int_values i ny nz)
  /\ (ny * nz)%Z <> 0%Z /\ ny <> 0%Z.
Proof.
  intros Hy Hz Hyz Hi.
  destruct (index_parts_bounds i ny nz Hy Hz) as (Hix & Hiy & Hiz & Hsum);
    [lia |].
  assert (Hpos : (0 < ny * nz)%Z) by nia.
  assert (Hprod : (0 <= ix_part i ny nz * (ny * nz) <= i)%Z) by nia.
  assert (Hyiz : (0 <= ny * iz_part i ny nz
                  <= i - ix_part i ny nz * (ny * nz))%Z) by nia.
  assert (Hny : (ny <= ny * nz)%Z) by nia.
  assert (Hnz : (nz <= ny * nz)%Z) by nia.
  assert (Hixi : (ix_part i ny nz <= i)%Z) by nia.
  split; [| lia].
  unfold index_int_values, in_int, INT_MIN, INT_MAX in *.
  repeat constructor; lia.
Qed.

(** X5: the index decomposition of lines 100 to 102 is a mixed-radix
    decoding.  For counts [ny], [nz] that are positive with [ny * nz] in the
    range of [int], and a particle number [i] in [0, INT_MAX]: every value
    of type [int] the three lines form lies in the range of [int] and no
    divisor is 0 (so the computation in [Z] is the one of the code); the
    parts satisfy [0 <= iy < ny], [0 <= iz < nz], [0 <= ix] and
    [i = ix * (ny * nz) + iz * ny + iy]; and the number built from parts in
    these ranges, if it is at most [INT_MAX], decodes to the same parts. *)
Theorem index_parts_round_trip (ny nz : Z) :
  (0 < ny)%Z -> (0 < nz)%Z -> (ny * nz <= INT_MAX)%Z ->
  (forall i, (0 <= i <= INT_MAX)%Z ->
     (Forall in_int (index_int_values i ny nz)
      /\ (ny * nz)%Z <> 0%Z /\ ny <> 0%Z)
     /\
     (0 <= ix_part i ny nz
      /\ 0 <= iy_part i ny nz < ny
      /\ 0 <= iz_part i ny nz < nz
      /\ i = ix_part i ny nz * (ny * nz) + iz_part i ny nz * ny
             + iy_part i ny nz)%Z)
  /\
  (forall a b c, (0 <= a)%Z -> (0 <= b < ny)%Z -> (0 <= c < nz)%Z ->
     (a * (ny * nz) + c * ny + b <= INT_MAX)%Z ->
     ix_part (a * (ny * nz) + c * ny + b) ny nz = a
     /\ iy_part (a * (ny * nz) + c * ny + b) ny nz = b
     /\ iz_part (a * (ny * nz) + c * ny + b) ny nz = c).
Proof.
  intros Hy Hz Hyz. split.
  - intros i Hi. split.
    + apply index_values_in_int; assumption.
    + apply index_parts_bounds; [assumption | assumption | lia].
  - intros a b c Ha Hb Hc _.
    assert (Hpos : (0 < ny * nz)%Z) by nia.
    assert (Hr : (0 <= c * ny + b < ny * nz)%Z) by nia.
    assert (Hi : (0 <= a * (ny * nz) + c * ny + b)%Z) by nia.
    destruct (index_parts_div _ ny nz Hy Hz Hi) as (-> & -> & ->).
    assert (Hq : ((a * (ny * nz) + c * ny + b) / (ny * nz) = a)%Z).
    { symmetry. apply (Z.div_unique _ _ a (c * ny + b)); lia. }
    assert (Hm : ((a * (ny * nz) + c * ny + b) mod (ny * nz) = c * ny + b)%Z).
    { symmetry. apply (Z.mod_unique _ _ a (c * ny + b)); lia. }
    rewrite Hq, Hm. repeat split.
    + symmetry. apply (Z.mod_unique _ _ c b); lia.
    + symmetry. apply (Z.div_unique _ _ c b); lia.
Qed.

(** Counts 3 and 2: the particle number 17 = 2 * 6 + 1 * 3 + 2. *)
Lemma index_parts_round_trip_witness :
  ix_part 17 3 2 = 2%Z /\ iy_part 17 3 2 = 2%Z /\ iz_part 17 3 2 = 1%Z.
Proof.
  apply (proj2 (index_parts_round_trip 3 2 ltac:(lia) ltac:(lia)
                  ltac:(unfold INT_MAX; lia)) 2 2 1)%Z;
    unfold INT_MAX; lia.
Defined.

(** *** The points of the regular injector *)










(** *** Every strategy samples the unit cell *)




(** X9: the plane strategy reads its direction with two tests, [dir == 0]
    and [dir == 1]: every other value, not only 2, takes the last branch.
    In the 1D build that branch returns the origin and leaves the generator
    untouched, and the directions 0 and 1 give the same sample. *)
Theorem random_plane_other_directions (dim : Dim) (RandomEngine : Type)
    (Random : RandomEngine -> R * RandomEngine)
    (dir i_part : Z) (ref_fac : IntVect) (engine : RandomEngine) :
  dir <> 0%Z -> dir <> 1%Z ->
  InjectorPositionRandomPlane_getPositionUnitBox dim RandomEngine Random dir
    i_part ref_fac engine
  = InjectorPositionRandomPlane_getPositionUnitBox dim RandomEngine Random 2
      i_part ref_fac engine
  /\ InjectorPositionRandomPlane_getPositionUnitBox DIM_1D_Z RandomEngine
       Random dir i_part ref_fac engine
     = (mkXDim3 0 0 0, engine)
  /\ InjectorPositionRandomPlane_getPositionUnitBox DIM_1D_Z RandomEngine
       Random 0 i_part ref_fac engine
     = InjectorPositionRandomPlane_getPositionUnitBox DIM_1D_Z RandomEngine
         Random 1 i_part ref_fac engine.
Proof.
  intros H0 H1. unfold InjectorPositionRandomPlane_getPositionUnitBox.
  apply Z.eqb_neq in H0, H1. rewrite H0, H1. cbn [Z.eqb].
  repeat split; destruct dim; reflexivity.
Qed.

(** Direction -1 in the 3D build. *)
Lemma random_plane_other_directions_witness :
  InjectorPositionRandomPlane_getPositionUnitBox DIM_3D unit const_engine
    (-1) 0 [1; 1; 1]%Z tt
  = InjectorPositionRandomPlane_getPositionUnitBox DIM_3D unit const_engine
      2 0 [1; 1; 1]%Z tt.
Proof.
  apply (random_plane_other_directions DIM_3D unit const_engine (-1) 0
           [1; 1; 1]%Z tt); lia.
Defined.

(** *** The tests against the plasma region *)

Lemma Rleb_false (a b : R) : Rleb a b = false <-> b < a.
Proof. unfold Rleb. destruct (Rle_dec a b); split; intros; try lra; congruence. Qed.

Lemma insideBounds_true (inj : InjectorPosition) (x y z : R) :
  insideBounds inj x y z = true <->
  xmin inj <= x < xmax inj /\ ymin inj <= y < ymax inj
  /\ zmin inj <= z < zmax inj.
Proof.
  unfold insideBounds, Rgeb.
  rewrite !andb_true_iff, !Rltb_true, !Rleb_true. lra.
Qed.

Lemma insideBoundsInclusive_true (inj : InjectorPosition) (x y z : R) :
  insideBoundsInclusive inj x y z = true <->
  xmin inj <= x <= xmax inj /\ ymin inj <= y <= ymax inj
  /\ zmin inj <= z <= zmax inj.
Proof.
  unfold insideBoundsInclusive, Rgeb.
  rewrite !andb_true_iff, !Rleb_true. lra.
Qed.

Lemma overlapsWith_true (inj : InjectorPosition) (lo hi : XDim3) :
  overlapsWith inj lo hi = true <->
  xmin inj <= xd_x hi /\ xd_x lo <= xmax inj
  /\ ymin inj <= xd_y hi /\ xd_y lo <= ymax inj
  /\ zmin inj <= xd_z hi /\ xd_z lo <= zmax inj.
Proof.
  unfold overlapsWith.
  rewrite negb_true_iff, !orb_false_iff, !Rgtb_false, !Rltb_false. tauto.
Qed.

(** X10: the two point tests differ exactly on the upper faces of the
    region.  A point accepted by [insideBounds] is accepted by
    [insideBoundsInclusive]; a point is accepted by the inclusive test and
    rejected by the other one exactly when it lies in the closed region and
    one of its coordinates equals the upper bound. *)
Theorem insideBounds_upper_faces (inj : InjectorPosition) (x y z : R) :
  (insideBounds inj x y z = true -> insideBoundsInclusive inj x y z = true)
  /\
  (insideBoundsInclusive inj x y z = true /\ insideBounds inj x y z = false
   <->
   (xmin inj <= x <= xmax inj /\ ymin inj <= y <= ymax inj
    /\ zmin inj <= z <= zmax inj)
   /\ (x = xmax inj \/ y = ymax inj \/ z = zmax inj)).
Proof.
  rewrite <- (not_true_iff_false (insideBounds inj x y z)).
  rewrite insideBounds_true, insideBoundsInclusive_true.
  split; [lra |]. split.
  - intros [Hin Hnot]. split; [exact Hin |].
    destruct (Req_dec x (xmax inj)) as [-> | Hx]; [tauto |].
    destruct (Req_dec y (ymax inj)) as [-> | Hy]; [tauto |].
    destruct (Req_dec z (zmax inj)) as [-> | Hz]; [tauto |].
    exfalso. apply Hnot. lra.
  - intros [Hin Hface]. split; [exact Hin |]. lra.
Qed.

(** X11: a region accepts some point under [insideBounds] exactly when its
    lower bound is strictly below its upper bound on every axis, and under
    [insideBoundsInclusive] exactly when it is below or equal: a region
    that is flat along an axis holds no point for the first test but holds
    its own faces for the second. *)
Theorem region_nonempty_iff (inj : InjectorPosition) :
  ((exists x y z, insideBounds inj x y z = true) <->
   xmin inj < xmax inj /\ ymin inj < ymax inj /\ zmin inj < zmax inj)
  /\
  ((exists x y z, insideBoundsInclusive inj x y z = true) <->
   xmin inj <= xmax inj /\ ymin inj <= ymax inj /\ zmin inj <= zmax inj).
Proof.
  split; split.
  - intros (x & y & z & H). apply insideBounds_true in H. lra.
  - intros H. exists (xmin inj), (ymin inj), (zmin inj).
    apply insideBounds_true. lra.
  - intros (x & y & z & H). apply insideBoundsInclusive_true in H. lra.
  - intros H. exists (xmin inj), (ymin inj), (zmin inj).
    apply insideBoundsInclusive_true. lra.
Qed.

(** X12: on a box that is a single point, [overlapsWith] is the inclusive
    point test. *)
Theorem overlapsWith_point (inj : InjectorPosition) (p : XDim3) :
  overlapsWith inj p p
  = insideBoundsInclusive inj (xd_x p) (xd_y p) (xd_z p).
Proof.
  apply eq_true_iff_eq.
  rewrite overlapsWith_true, insideBoundsInclusive_true. lra.
Qed.

(** X13: for a region with [min <= max] on every axis and a query box with
    [lo <= hi] on every axis, [overlapsWith] answers true exactly when some
    point of the query box is accepted by [insideBoundsInclusive]. *)
Theorem overlapsWith_common_point (inj : InjectorPosition) (lo hi : XDim3) :
  xmin inj <= xmax inj -> ymin inj <= ymax inj -> zmin inj <= zmax inj ->
  xd_x lo <= xd_x hi -> xd_y lo <= xd_y hi -> xd_z lo <= xd_z hi ->
  (overlapsWith inj lo hi = true <->
   exists x y z,
     (xd_x lo <= x <= xd_x hi /\ xd_y lo <= y <= xd_y hi
      /\ xd_z lo <= z <= xd_z hi)
     /\ insideBoundsInclusive inj x y z = true).
Proof.
  intros Hx Hy Hz Hqx Hqy Hqz. rewrite overlapsWith_true. split.
  - intros H.
    exists (Rmax (xd_x lo) (xmin inj)), (Rmax (xd_y lo) (ymin inj)),
           (Rmax (xd_z lo) (zmin inj)).
    rewrite insideBoundsInclusive_true.
    unfold Rmax.
    destruct (Rle_dec (xd_x lo) (xmin inj)), (Rle_dec (xd_y lo) (ymin inj)),
             (Rle_dec (xd_z lo) (zmin inj)); lra.
  - intros (x & y & z & Hq & Hin). apply insideBoundsInclusive_true in Hin. lra.
Qed.

(** The unit box against the box from (1, 1, 1) to (2, 2, 2): they share
    the corner (1, 1, 1). *)
Lemma overlapsWith_common_point_witness :
  overlapsWith random_unit_box (mkXDim3 1 1 1) (mkXDim3 2 2 2) = true <->
  exists x y z,
    (1 <= x <= 2 /\ 1 <= y <= 2 /\ 1 <= z <= 2)
    /\ insideBoundsInclusive random_unit_box x y z = true.
Proof.
  apply (overlapsWith_common_point random_unit_box (mkXDim3 1 1 1)
           (mkXDim3 2 2 2)); simpl; lra.
Defined.

End InjectorFacts.

(** ** The buffer partition *)

Module SortingFacts.
Import Sorting.

Section ListFacts.

(** Filters that agree on the elements of a list give the same list. *)
Lemma filter_agree {A} (P Q : A -> Prop)
    `{!forall x, Decision (P x)} `{!forall x, Decision (Q x)} (l : list A) :
  (forall x, x ∈ l -> (P x <-> Q x)) -> filter P l = filter Q l.
Proof.
  induction l as [| x l IH]; intros Hagree; [reflexivity |].
  rewrite !filter_cons.
  assert (Hx : P x <-> Q x) by (apply Hagree; left).
  assert (Hl : filter P l = filter Q l)
    by (apply IH; intros y Hy; apply Hagree; right; exact Hy).
  rewrite Hl. destruct (decide (P x)), (decide (Q x)); tauto.
Qed.

(** A list splits into the elements that pass a test and those that fail it. *)
Lemma length_filter_split {A} (P : A -> Prop) `{!forall x, Decision (P x)}
    (l : list A) :
  length (filter (fun x => ~ P x) l) + length (filter P l) = length l.
Proof.
  induction l as [| x l IH]; [reflexivity |].
  rewrite !filter_cons.
  destruct (decide (P x)), (decide (~ P x)); simpl; try tauto; lia.
Qed.

(** Filtering keeps a strictly increasing list strictly increasing. *)
Lemma StronglySorted_filter (P : nat -> Prop) `{!forall x, Decision (P x)}
    (l : list nat) :
  StronglySorted lt l -> StronglySorted lt (filter P l).
Proof.
  induction 1 as [| x l Hl IH Hx]; [constructor |].
  rewrite filter_cons. destruct (decide (P x)); [| exact IH].
  constructor; [exact IH |].
  apply Forall_forall. intros y [_ Hy]%list_elem_of_filter.
  rewrite Forall_forall in Hx. apply Hx, Hy.
Qed.

Lemma StronglySorted_seq (k n : nat) : StronglySorted lt (seq k n).
Proof.
  revert k. induction n as [| n IH]; intros k; simpl; [constructor |].
  constructor; [apply IH |].
  apply Forall_forall. intros y Hy%elem_of_seq. lia.
Qed.

(** In a strictly increasing list, a smaller value sits at a smaller position. *)
Lemma StronglySorted_lookup_lt (l : list nat) (p q i j : nat) :
  StronglySorted lt l -> l !! p = Some i -> l !! q = Some j ->
  i < j -> p < q.
Proof.
  intros Hs. revert p q. induction Hs as [| x l Hl IH Hx]; intros p q Hp Hq Hij.
  - rewrite lookup_nil in Hp. discriminate.
  - rewrite Forall_forall in Hx.
    destruct p as [| p], q as [| q]; simpl in *.
    + simplify_eq. lia.
    + lia.
    + simplify_eq. apply list_elem_of_lookup_2 in Hp. apply Hx in Hp. lia.
    + apply ->Nat.succ_lt_mono. eapply IH; eauto.
Qed.

End ListFacts.

(** *** The gather of a tile *)

Section Gather.
Context {A : Type} `{!Inhabited A}.

Lemma gather_array_length (src : list A) (np : nat) (inds : list nat) :
  length (gather_array src np inds) = np.
Proof. unfold gather_array. rewrite length_fmap. apply length_seq. Qed.

(** Slot [k] of the result holds the source data of slot [inds[k]]. *)
Lemma gather_array_lookup (src : list A) (np : nat) (inds : list nat)
    (k j : nat) (x : A) :
  k < np -> inds !! k = Some j -> src !! j = Some x ->
  gather_array src np inds !! k = Some x.
Proof.
  intros Hk Hj Hx. unfold gather_array.
  rewrite list_lookup_fmap, lookup_seq_lt by exact Hk. simpl.
  rewrite (list_lookup_total_correct _ _ _ Hj).
  rewrite (list_lookup_total_correct _ _ _ Hx). reflexivity.
Qed.

(** Gathering with the identity permutation gives the array back. *)
Lemma gather_array_id (src : list A) :
  gather_array src (length src) (seq 0 (length src)) = src.
Proof.
  apply list_eq. intros k.
  destruct (src !! k) as [x |] eqn:Hx.
  - pose proof (lookup_lt_Some _ _ _ Hx) as Hk.
    apply (gather_array_lookup src _ _ k k x Hk); [| exact Hx].
    apply lookup_seq_lt. exact Hk.
  - apply lookup_ge_None. rewrite gather_array_length.
    apply lookup_ge_None in Hx. exact Hx.
Qed.

(** Gathering along a rearrangement of 0, ..., np-1 rearranges the array. *)
Lemma gather_array_Permutation (src : list A) (inds : list nat) :
  inds ≡ₚ seq 0 (length src) ->
  gather_array src (length src) inds ≡ₚ src.
Proof.
  intros Hperm.
  assert (Hlen : length inds = length src)
    by (rewrite Hperm; apply length_seq).
  assert (Hg : gather_array src (length src) inds = (fun j => src !!! j) <$> inds).
  { apply list_eq. intros k. unfold gather_array.
    rewrite !list_lookup_fmap.
    destruct (inds !! k) as [j |] eqn:Hj.
    - rewrite lookup_seq_lt by (apply lookup_lt_Some in Hj; lia). simpl.
      rewrite (list_lookup_total_correct _ _ _ Hj). reflexivity.
    - rewrite lookup_seq_ge by (apply lookup_ge_None in Hj; lia).
      reflexivity. }
  assert (Hid : (fun j => src !!! j) <$> seq 0 (length src) = src).
  { apply list_eq. intros k. rewrite list_lookup_fmap.
    destruct (src !! k) as [x |] eqn:Hx.
    - rewrite lookup_seq_lt by (apply lookup_lt_Some in Hx; exact Hx). simpl.
      rewrite (list_lookup_total_correct _ _ _ Hx). reflexivity.
    - rewrite lookup_seq_ge by (apply lookup_ge_None in Hx; exact Hx).
      reflexivity. }
  rewrite Hg, Hperm, Hid. reflexivity.
Qed.

End Gather.

Section GatherTile.
Context {ParticleReal : Type} `{!Inhabited ParticleReal}.

Lemma fmap_gather_id {A : Type} `{!Inhabited A} (np : nat) (arrays : list (list A)) :
  Forall (fun a => length a = np) arrays ->
  (fun a => gather_array a np (seq 0 np)) <$> arrays = arrays.
Proof.
  induction 1 as [| a arrays Ha _ IH]; [reflexivity |].
  rewrite fmap_cons, IH. subst np. rewrite gather_array_id. reflexivity.
Qed.

(** Reordering with the identity permutation leaves the tile as it is. *)
Lemma gatherParticles_id (np : nat) (t : @ParticleTile ParticleReal) :
  tile_size np t -> gatherParticles t np (seq 0 np) = t.
Proof.
  intros (Hr & Hi & Hc). destruct t as [rdata idata idcpu]. simpl in *.
  unfold gatherParticles. simpl.
  rewrite (fmap_gather_id np rdata Hr), (fmap_gather_id np idata Hi).
  subst np. rewrite gather_array_id. reflexivity.
Qed.

(** A gathered tile is again a tile of [np] particles. *)
Lemma gatherParticles_size (np : nat) (t : @ParticleTile ParticleReal)
    (inds : list nat) :
  tile_size np (gatherParticles t np inds).
Proof.
  unfold tile_size, gatherParticles. simpl. repeat split.
  - apply Forall_fmap, Forall_forall. intros a _. apply gather_array_length.
  - apply Forall_fmap, Forall_forall. intros a _. apply gather_array_length.
  - apply gather_array_length.
Qed.

Lemma fmap_gather_Permutation {A : Type} `{!Inhabited A} (np : nat)
    (arrays : list (list A)) (inds : list nat) :
  Forall (fun a => length a = np) arrays -> inds ≡ₚ seq 0 np ->
  Forall2 (≡ₚ) ((fun a => gather_array a np inds) <$> arrays) arrays.
Proof.
  induction 1 as [| a arrays Ha _ IH]; intros Hp; [constructor |].
  rewrite fmap_cons. constructor; [| apply IH, Hp].
  subst np. apply gather_array_Permutation, Hp.
Qed.

(** Reordering along a rearrangement of 0, ..., np-1 rearranges every
    attribute array. *)
Lemma gatherParticles_same_particles (np : nat)
    (t : @ParticleTile ParticleReal) (inds : list nat) :
  tile_size np t -> inds ≡ₚ seq 0 np ->
  same_particles t (gatherParticles t np inds).
Proof.
  intros (Hr & Hi & Hc) Hp. unfold same_particles, gatherParticles.
  cbn [m_rdata m_idata m_idcpu]. repeat split.
  - apply fmap_gather_Permutation; assumption.
  - apply fmap_gather_Permutation; assumption.
  - rewrite <- Hc in Hp |- *. apply gather_array_Permutation, Hp.
Qed.

Lemma same_particles_refl (t : @ParticleTile ParticleReal) :
  same_particles t t.
Proof.
  unfold same_particles. repeat split; try reflexivity;
    apply Forall_Forall2_diag, Forall_forall; intros; reflexivity.
Qed.

End GatherTile.

Section Facts.
Context {ParticleReal : Type} `{!Inhabited ParticleReal}.
Context {IntVect Geometry : Type}.
Variable mask_at : MaskPtr -> @iMultiFab IntVect.
Variable in_buffer : Z -> bool.
Variable GetParticlePosition :
  @ParticleTile ParticleReal -> nat -> ParticleReal * ParticleReal * ParticleReal.
Variable getParticleCell :
  Geometry -> ParticleReal * ParticleReal * ParticleReal -> IntVect.
Variable Geom : Z -> Geometry.
Variable Wc Wg : Z.
Variable deposit_on_main gather_from_main : bool.

Local Abbreviation flag := (buffer_flag mask_at GetParticlePosition getParticleCell).
Local Abbreviation fill := (fillBufferFlag mask_at GetParticlePosition getParticleCell).
Local Abbreviation fill_rest :=
  (fillBufferFlagRemainingParticles mask_at GetParticlePosition getParticleCell).
Local Abbreviation fine :=
  (fine_of mask_at in_buffer GetParticlePosition getParticleCell Geom).
Local Abbreviation buffer :=
  (buffer_of mask_at in_buffer GetParticlePosition getParticleCell Geom).
Local Abbreviation split_range := (stablePartition in_buffer).
Local Abbreviation passes :=
  (PartitionPasses mask_at in_buffer GetParticlePosition getParticleCell Geom
     Wc Wg).
Local Abbreviation partition :=
  (PartitionParticlesInBuffers mask_at in_buffer GetParticlePosition
     getParticleCell Geom Wc Wg deposit_on_main gather_from_main).

(** *** The flag arrays *)

Lemma flag_at_insert (l : list Z) (i j : nat) (v : Z) :
  j < length l ->
  flag_at (<[i:=v]> l) j = if decide (i = j) then v else flag_at l j.
Proof.
  intros Hj. unfold flag_at. destruct (decide (i = j)) as [-> | Hne].
  - rewrite list_lookup_insert_eq by exact Hj. reflexivity.
  - rewrite list_lookup_insert_ne by exact Hne. reflexivity.
Qed.

(** Writing the flag of each listed particle to its own slot: afterwards
    the slot of a listed particle holds its flag, every other slot is as
    before. *)
Lemma flag_at_writes (f : nat -> Z) (js : list nat) (l : list Z) (j : nat) :
  j < length l ->
  flag_at (foldl (fun s i => <[i:=f i]> s) l js) j
  = if decide (j ∈ js) then f j else flag_at l j.
Proof.
  revert l. induction js as [| i js IH]; intros l Hj; simpl.
  - destruct (decide (j ∈ [])) as [Hin | _]; [| reflexivity].
    apply elem_of_nil in Hin. destruct Hin.
  - rewrite IH by (rewrite length_insert; exact Hj).
    rewrite flag_at_insert by exact Hj.
    destruct (decide (j ∈ js)) as [Hin | Hnin].
    + rewrite decide_True by (right; exact Hin). reflexivity.
    + destruct (decide (i = j)) as [-> | Hne].
      * rewrite decide_True by left. reflexivity.
      * rewrite decide_False; [reflexivity |].
        intros [Heq | Hin]%elem_of_cons; [congruence | tauto].
Qed.

Lemma length_writes (f : nat -> Z) (js : list nat) (l : list Z) :
  length (foldl (fun s i => <[i:=f i]> s) l js) = length l.
Proof.
  revert l. induction js as [| i js IH]; intros l; simpl; [reflexivity |].
  rewrite IH. apply length_insert.
Qed.

(** The first kernel writes slot [i] for every [i] below [n]. *)
Lemma ParallelFor_fill (pti : ParticleTile) (m : MaskPtr) (g : Geometry)
    (n : nat) (l : list Z) :
  ParallelFor n (fill pti m g) l
  = foldl (fun s i => <[i:=flag pti m g i]> s) l (seq 0 n).
Proof. reflexivity. Qed.

(** The second kernel writes the slots of the particles listed in the index
    array from [start] on. *)
Lemma ParallelFor_fill_rest (pti : ParticleTile) (m : MaskPtr) (g : Geometry)
    (pid : list nat) (start n : nat) (l : list Z) :
  ParallelFor n (fill_rest pti m g pid start) l
  = foldl (fun s j => <[j:=flag pti m g j]> s) l (take n (drop start pid)).
Proof.
  unfold ParallelFor.
  enough (Hgen : forall k l,
    foldl (fun s i => fill_rest pti m g pid start i s) l (seq k n)
    = foldl (fun s j => <[j:=flag pti m g j]> s) l
        (take n (drop (k + start) pid))) by apply (Hgen 0).
  induction n as [| n IH]; intros k l'; [reflexivity |].
  cbn [seq foldl]. rewrite IH.
  unfold fillBufferFlagRemainingParticles at 1.
  destruct (pid !! (k + start)) as [j |] eqn:Hj.
  - rewrite (drop_S _ _ _ Hj). reflexivity.
  - rewrite (drop_ge pid (k + start)) by (apply lookup_ge_None; exact Hj).
    rewrite (drop_ge pid (S k + start))
      by (apply lookup_ge_None in Hj; lia).
    rewrite !take_nil. reflexivity.
Qed.

(** *** The partition primitive *)

Lemma stablePartition_all (pid : list nat) (predicate : list Z) :
  split_range pid 0 (length pid) predicate
  = (filter (fun i => ~ in_buffer (flag_at predicate i)) pid
       ++ filter (fun i => in_buffer (flag_at predicate i)) pid,
     length (filter (fun i => ~ in_buffer (flag_at predicate i)) pid)).
Proof.
  unfold stablePartition.
  rewrite Nat.sub_0_r, drop_0, take_0, drop_all, firstn_all, app_nil_r.
  reflexivity.
Qed.

Lemma stablePartition_back (front back : list nat) (predicate : list Z) :
  split_range (front ++ back) (length front) (length (front ++ back))
    predicate
  = (front ++ filter (fun i => ~ in_buffer (flag_at predicate i)) back
       ++ filter (fun i => in_buffer (flag_at predicate i)) back,
     length front
     + length (filter (fun i => ~ in_buffer (flag_at predicate i)) back)).
Proof.
  unfold stablePartition.
  rewrite drop_all, take_app_length, drop_app_length, app_nil_r.
  rewrite length_app, Nat.add_sub', firstn_all. reflexivity.
Qed.

(** *** The two passes in closed form *)

Lemma first_pass_flags (pti : ParticleTile) (m : MaskPtr) (g : Geometry)
    (n j : nat) :
  j < n ->
  flag_at (ParallelFor n (fill pti m g) (replicate n 0%Z)) j = flag pti m g j.
Proof.
  intros Hj. rewrite ParallelFor_fill.
  rewrite flag_at_writes by (rewrite length_replicate; exact Hj).
  rewrite decide_True; [reflexivity |]. apply elem_of_seq. lia.
Qed.

Lemma first_pass_partition (pti : ParticleTile) (m : MaskPtr) (lev : Z)
    (n : nat) :
  split_range (fillWithConsecutiveIntegers (replicate n 0))
    0 (length (fillWithConsecutiveIntegers (replicate n 0)))
    (ParallelFor n (fill pti m (Geom lev)) (replicate n 0%Z))
  = (fine pti m lev (seq 0 n) ++ buffer pti m lev (seq 0 n),
     length (fine pti m lev (seq 0 n))).
Proof.
  rewrite stablePartition_all. unfold fillWithConsecutiveIntegers.
  rewrite length_replicate. unfold fine_of, buffer_of.
  rewrite (filter_agree _ (fun i => ~ in_buffer (flag pti m (Geom lev) i))).
  2:{ intros j Hj%elem_of_seq. rewrite first_pass_flags by lia. reflexivity. }
  rewrite (filter_agree (fun i => Is_true (in_buffer (flag_at _ i)))
             (fun i => in_buffer (flag pti m (Geom lev) i))).
  2:{ intros j Hj%elem_of_seq. rewrite first_pass_flags by lia. reflexivity. }
  reflexivity.
Qed.

Lemma length_fine_buffer (pti : ParticleTile) (m : MaskPtr) (lev : Z)
    (l : list nat) :
  length (fine pti m lev l) + length (buffer pti m lev l) = length l.
Proof. apply length_filter_split. Qed.

Lemma second_pass_partition (pti : ParticleTile) (m om : MaskPtr) (lev : Z)
    (n : nat) :
  let F := fine pti m lev (seq 0 n) in
  let B := buffer pti m lev (seq 0 n) in
  split_range (F ++ B) (length F) (length (F ++ B))
    (ParallelFor (length B)
       (fill_rest pti om (Geom lev) (F ++ B) (length F))
       (ParallelFor n (fill pti m (Geom lev)) (replicate n 0%Z)))
  = (F ++ fine pti om lev B ++ buffer pti om lev B,
     length F + length (fine pti om lev B)).
Proof.
  intros F B. rewrite stablePartition_back, ParallelFor_fill_rest.
  rewrite drop_app_length, firstn_all.
  assert (Hflag : forall j, j ∈ B ->
    flag_at (foldl (fun s j => <[j:=flag pti om (Geom lev) j]> s)
               (ParallelFor n (fill pti m (Geom lev)) (replicate n 0%Z)) B) j
    = flag pti om (Geom lev) j).
  { intros j Hj. rewrite flag_at_writes.
    - rewrite decide_True by exact Hj. reflexivity.
    - rewrite ParallelFor_fill, length_writes, length_replicate.
      apply list_elem_of_filter in Hj as [_ Hj%elem_of_seq]. lia. }
  unfold fine_of, buffer_of.
  rewrite (filter_agree _ (fun i => ~ in_buffer (flag pti om (Geom lev) i)))
    by (intros j Hj; rewrite Hflag by exact Hj; reflexivity).
  rewrite (filter_agree (fun i => Is_true (in_buffer (flag_at _ i)))
             (fun i => in_buffer (flag pti om (Geom lev) i)))
    by (intros j Hj; rewrite Hflag by exact Hj; reflexivity).
  reflexivity.
Qed.

(** The result of lines 61 to 121, with the flag arrays and the partition
    primitive replaced by what they compute. *)
Lemma PartitionPasses_closed (nfc nfg np : Z) (pti : ParticleTile) (lev : Z)
    (cm gm : MaskPtr) :
  let n := Z.to_nat np in
  let pm := if (Wc <=? Wg)%Z then gm else cm in
  let F := fine pti pm lev (seq 0 n) in
  let B := buffer pti pm lev (seq 0 n) in
  let n_fine := Z.of_nat (length F) in
  passes nfc nfg np pti lev cm gm =
  if (Wc =? Wg)%Z then mkPasses n_fine n_fine (F ++ B) (length F) None
  else if (length F =? n)%nat then mkPasses np np (F ++ B) (length F) None
  else
    let om := if (pm =? gm)%nat then cm else gm in
    let n_buf := if (pm =? gm)%nat then Wc else Wg in
    let nfc1 := if (pm =? gm)%nat then nfc else n_fine in
    let nfg1 := if (pm =? gm)%nat then n_fine else nfg in
    if (0 <? n_buf)%Z then
      let s2 := (length F + length (fine pti om lev B))%nat in
      let pid2 := F ++ fine pti om lev B ++ buffer pti om lev B in
      if (om =? gm)%nat
      then mkPasses nfc1 (Z.of_nat s2) pid2 (length F) (Some s2)
      else mkPasses (Z.of_nat s2) nfg1 pid2 (length F) (Some s2)
    else mkPasses nfc1 nfg1 (F ++ B) (length F) None.
Proof.
  intros n pm F B n_fine. unfold PartitionPasses.
  fold n. fold pm. rewrite first_pass_partition. fold F. fold B.
  assert (HFB : length F + length B = n).
  { unfold F, B. rewrite length_fine_buffer. apply length_seq. }
  assert (Hdist : forall k, iteratorDistance 0 k = Z.of_nat k)
    by (intros k; unfold iteratorDistance; lia).
  rewrite !Hdist. fold n_fine.
  destruct (Wc =? Wg)%Z; [reflexivity |].
  rewrite length_app, HFB.
  destruct (length F =? n)%nat eqn:Hall; [reflexivity |].
  apply Nat.eqb_neq in Hall.
  assert (Hnp : np = Z.of_nat n) by (unfold n; lia).
  assert (Hrest : Z.to_nat (np - n_fine) = length B) by (unfold n_fine; lia).
  assert (Hstart : Z.to_nat n_fine = length F) by (unfold n_fine; lia).
  destruct (pm =? gm)%nat.
  - destruct (0 <? Wc)%Z; [| reflexivity].
    rewrite Hrest, Hstart.
    replace n with (length (F ++ B)) at 1 by (rewrite length_app; exact HFB).
    unfold F at 1 2 3, B at 1 2 3 4. rewrite second_pass_partition.
    fold F. fold B. rewrite !Hdist.
    destruct (cm =? gm)%nat; reflexivity.
  - destruct (0 <? Wg)%Z; [| reflexivity].
    rewrite Hrest, Hstart.
    replace n with (length (F ++ B)) at 1 by (rewrite length_app; exact HFB).
    unfold F at 1 2 3, B at 1 2 3 4. rewrite second_pass_partition.
    fold F. fold B. rewrite !Hdist.
    rewrite Nat.eqb_refl. reflexivity.
Qed.

(** *** Consequences for the counts *)

Ltac passes_cases :=
  rewrite PartitionPasses_closed; cbv zeta;
  repeat match goal with
         | |- context [if ?b then _ else _] => destruct b eqn:?
         end;
  cbn [ps_nfine_current ps_nfine_gather ps_pid ps_sep ps_sep2].

Lemma length_fine_le (pti : ParticleTile) (m : MaskPtr) (lev : Z) (l : list nat) :
  length (fine pti m lev l) <= length l.
Proof. apply length_filter. Qed.

(** After the two passes each count is a number of particles, or the value
    the caller passed in. *)
Lemma passes_counts_in_range (nfc nfg np : Z) (pti : ParticleTile) (lev : Z)
    (cm gm : MaskPtr) :
  (0 <= np)%Z -> (0 <= nfc <= np)%Z -> (0 <= nfg <= np)%Z ->
  (0 <= ps_nfine_current (passes nfc nfg np pti lev cm gm) <= np)%Z /\
  (0 <= ps_nfine_gather (passes nfc nfg np pti lev cm gm) <= np)%Z.
Proof.
  intros Hnp Hc Hg.
  pose proof (length_fine_le pti gm lev (seq 0 (Z.to_nat np))) as HF1.
  pose proof (length_fine_le pti cm lev (seq 0 (Z.to_nat np))) as HF2.
  pose proof (length_fine_buffer pti gm lev (seq 0 (Z.to_nat np))) as HB1.
  pose proof (length_fine_buffer pti cm lev (seq 0 (Z.to_nat np))) as HB2.
  pose proof (length_fine_le pti cm lev
                (buffer pti gm lev (seq 0 (Z.to_nat np)))) as HS1.
  pose proof (length_fine_le pti gm lev
                (buffer pti gm lev (seq 0 (Z.to_nat np)))) as HS1'.
  pose proof (length_fine_le pti gm lev
                (buffer pti cm lev (seq 0 (Z.to_nat np)))) as HS2.
  pose proof (length_fine_le pti cm lev
                (buffer pti cm lev (seq 0 (Z.to_nat np)))) as HS2'.
  rewrite length_seq in *.
  passes_cases; lia.
Qed.

Lemma override_cases (flag : bool) (lev : Z) (v np : Z) :
  (0 <= np)%Z -> (0 <= v <= np)%Z ->
  (0 <= (if flag && (0 <? lev)%Z then 0 else v) <= np)%Z.
Proof. intros. destruct (flag && (0 <? lev)%Z); lia. Qed.

Lemma partition_counts (nfc nfg np : Z) (pti : ParticleTile) (lev : Z)
    (cm gm : MaskPtr) :
  out_nfine_current (partition nfc nfg np pti lev cm gm)
  = (if override_current deposit_on_main lev then 0%Z
     else ps_nfine_current (passes nfc nfg np pti lev cm gm))
  /\ out_nfine_gather (partition nfc nfg np pti lev cm gm)
  = (if override_gather gather_from_main lev then 0%Z
     else ps_nfine_gather (passes nfc nfg np pti lev cm gm))
  /\ out_pid (partition nfc nfg np pti lev cm gm)
  = ps_pid (passes nfc nfg np pti lev cm gm).
Proof.
  unfold PartitionParticlesInBuffers.
  destruct (must_reorder _ _ _); repeat split; reflexivity.
Qed.

(** X23: the function never takes a count out of range.  For [np >= 0],
    if the values the two counts hold on entry lie between 0 and [np], so do
    the two counts the function returns, whatever the masks, the widths and
    the policy flags: every value the function assigns is a number of
    particles of the tile. *)
Theorem fine_counts_in_range (nfine_current nfine_gather np : Z)
    (pti : ParticleTile) (lev : Z) (current_masks gather_masks : MaskPtr) :
  (0 <= np)%Z ->
  (0 <= nfine_current <= np)%Z -> (0 <= nfine_gather <= np)%Z ->
  (0 <= out_nfine_current
          (PartitionParticlesInBuffers mask_at in_buffer GetParticlePosition
             getParticleCell Geom Wc Wg deposit_on_main gather_from_main
             nfine_current nfine_gather np pti lev current_masks gather_masks)
     <= np)%Z
  /\
  (0 <= out_nfine_gather
          (PartitionParticlesInBuffers mask_at in_buffer GetParticlePosition
             getParticleCell Geom Wc Wg deposit_on_main gather_from_main
             nfine_current nfine_gather np pti lev current_masks gather_masks)
     <= np)%Z.
Proof.
  intros Hnp Hc Hg.
  destruct (partition_counts nfine_current nfine_gather np pti lev
              current_masks gather_masks) as (-> & -> & _).
  destruct (passes_counts_in_range nfine_current nfine_gather np pti lev
              current_masks gather_masks Hnp Hc Hg) as [Hc' Hg'].
  unfold override_current, override_gather.
  split; apply override_cases; assumption.
Qed.

(** C3, as the code has it: with equal widths the two returned counts are
    equal whenever the two policy overrides apply alike (both or neither). *)
Theorem equal_widths_equal_counts (nfine_current nfine_gather np : Z)
    (pti : ParticleTile) (lev : Z) (current_masks gather_masks : MaskPtr) :
  Wc = Wg ->
  override_current deposit_on_main lev = override_gather gather_from_main lev ->
  out_nfine_current
    (PartitionParticlesInBuffers mask_at in_buffer GetParticlePosition
       getParticleCell Geom Wc Wg deposit_on_main gather_from_main
       nfine_current nfine_gather np pti lev current_masks gather_masks)
  = out_nfine_gather
      (PartitionParticlesInBuffers mask_at in_buffer GetParticlePosition
         getParticleCell Geom Wc Wg deposit_on_main gather_from_main
         nfine_current nfine_gather np pti lev current_masks gather_masks).
Proof.
  intros HW Hov.
  destruct (partition_counts nfine_current nfine_gather np pti lev
              current_masks gather_masks) as (-> & -> & _).
  rewrite Hov. destruct (override_gather gather_from_main lev); [reflexivity |].
  rewrite PartitionPasses_closed. cbv zeta.
  apply Z.eqb_eq in HW. rewrite HW. reflexivity.
Qed.


(** *** The permutation *)

Lemma fine_buffer_Permutation (pti : ParticleTile) (m : MaskPtr) (lev : Z)
    (l : list nat) :
  fine pti m lev l ++ buffer pti m lev l ≡ₚ l.
Proof.
  unfold fine_of, buffer_of.
  induction l as [| x l IH]; [reflexivity |].
  rewrite !filter_cons.
  destruct (decide (~ in_buffer (flag pti m (Geom lev) x))),
           (decide (Is_true (in_buffer (flag pti m (Geom lev) x)))); try tauto.
  - simpl. rewrite IH. reflexivity.
  - rewrite <- Permutation_middle. rewrite IH. reflexivity.
Qed.

(** The index array is always a rearrangement of 0, ..., np-1. *)
Lemma passes_pid_Permutation (nfc nfg np : Z) (pti : ParticleTile) (lev : Z)
    (cm gm : MaskPtr) :
  ps_pid (passes nfc nfg np pti lev cm gm) ≡ₚ seq 0 (Z.to_nat np).
Proof.
  passes_cases;
    first [ apply fine_buffer_Permutation
          | etransitivity;
            [ apply Permutation_app_head, fine_buffer_Permutation
            | apply fine_buffer_Permutation ] ].
Qed.

(** In every case the separator of the first pass is the number of particles
    the primary mask leaves on the fine patch, and the index array starts
    with these particles, in increasing order. *)
Lemma passes_front (nfc nfg np : Z) (pti : ParticleTile) (lev : Z)
    (cm gm : MaskPtr) :
  let front :=
    fine pti (primary_mask Wc Wg cm gm) lev (seq 0 (Z.to_nat np)) in
  ps_sep (passes nfc nfg np pti lev cm gm) = length front
  /\ take (length front) (ps_pid (passes nfc nfg np pti lev cm gm)) = front.
Proof.
  unfold primary_mask, gather_is_primary.
  passes_cases; split; first [reflexivity | apply take_app_length].
Qed.

(** No particle is lost or doubled: whether or not the tile is reordered,
    its id array holds the ids it held before. *)
Lemma partition_keeps_ids (nfc nfg np : Z) (pti : ParticleTile) (lev : Z)
    (cm gm : MaskPtr) :
  tile_size (Z.to_nat np) pti ->
  m_idcpu (out_tile (partition nfc nfg np pti lev cm gm)) ≡ₚ m_idcpu pti.
Proof.
  intros (_ & _ & Hlen). unfold PartitionParticlesInBuffers.
  destruct (must_reorder _ _ _); cbn [out_tile]; [| reflexivity].
  unfold gatherParticles. cbn [m_idcpu]. rewrite <- Hlen.
  apply gather_array_Permutation. rewrite Hlen.
  apply passes_pid_Permutation.
Qed.

(** *** Stability *)

Lemma fine_sorted (pti : ParticleTile) (m : MaskPtr) (lev : Z) (l : list nat) :
  StronglySorted lt l -> StronglySorted lt (fine pti m lev l).
Proof. apply StronglySorted_filter. Qed.

Lemma buffer_sorted (pti : ParticleTile) (m : MaskPtr) (lev : Z) (l : list nat) :
  StronglySorted lt l -> StronglySorted lt (buffer pti m lev l).
Proof. apply StronglySorted_filter. Qed.

(** Two increasing runs laid end to end: inside either run a smaller index
    comes first. *)
Lemma two_runs_stable (A B : list nat) (p q i j : nat) :
  StronglySorted lt A -> StronglySorted lt B ->
  (A ++ B) !! p = Some i -> (A ++ B) !! q = Some j -> i < j ->
  (p < length A <-> q < length A) -> p < q.
Proof.
  intros HA HB Hp Hq Hij Hseg.
  destruct (Nat.lt_ge_cases p (length A)) as [Hlt | Hge].
  - rewrite lookup_app_l in Hp by exact Hlt.
    rewrite lookup_app_l in Hq by (apply Hseg; exact Hlt).
    exact (StronglySorted_lookup_lt A p q i j HA Hp Hq Hij).
  - assert (Hge' : length A <= q) by lia.
    rewrite lookup_app_r in Hp by exact Hge.
    rewrite lookup_app_r in Hq by exact Hge'.
    pose proof (StronglySorted_lookup_lt B _ _ i j HB Hp Hq Hij). lia.
Qed.

Lemma three_runs_stable (A B C : list nat) (p q i j : nat) :
  StronglySorted lt A -> StronglySorted lt B -> StronglySorted lt C ->
  (A ++ B ++ C) !! p = Some i -> (A ++ B ++ C) !! q = Some j -> i < j ->
  (p < length A <-> q < length A) ->
  (p < length A + length B <-> q < length A + length B) -> p < q.
Proof.
  intros HA HB HC Hp Hq Hij Hseg1 Hseg2.
  destruct (Nat.lt_ge_cases p (length A)) as [Hlt | Hge].
  - rewrite lookup_app_l in Hp by exact Hlt.
    rewrite lookup_app_l in Hq by (apply Hseg1; exact Hlt).
    exact (StronglySorted_lookup_lt A p q i j HA Hp Hq Hij).
  - assert (Hge' : length A <= q) by lia.
    rewrite lookup_app_r in Hp by exact Hge.
    rewrite lookup_app_r in Hq by exact Hge'.
    assert (p - length A < q - length A); [| lia].
    apply (two_runs_stable B C _ _ i j HB HC Hp Hq Hij). lia.
Qed.

(** C5: after the passes, take two positions of the index array that lie in
    the same output segment (no separator of a pass between them).  If the
    particle index at the one is smaller than the particle index at the
    other, then it also comes first in the array: every group keeps the
    order of the input, in both passes. *)
Theorem partition_passes_stable (nfine_current nfine_gather np : Z)
    (pti : ParticleTile) (lev : Z) (current_masks gather_masks : MaskPtr)
    (p q i j : nat) :
  let ps :=
    PartitionPasses mask_at in_buffer GetParticlePosition getParticleCell Geom Wc Wg
      nfine_current nfine_gather np pti lev current_masks gather_masks in
  ps_pid ps !! p = Some i -> ps_pid ps !! q = Some j ->
  i < j -> same_segment ps p q -> p < q.
Proof.
  intros ps. subst ps. unfold same_segment, separators.
  pose proof (StronglySorted_seq 0 (Z.to_nat np)) as Hseq.
  passes_cases; intros Hp Hq Hij Hseg;
    repeat match goal with
           | H : Forall _ (_ :: _) |- _ => apply Forall_cons in H as [? H]
           end;
    lazymatch goal with
    | Hp' : (?A ++ ?B ++ ?C) !! p = Some i |- _ =>
        apply (three_runs_stable A B C p q i j);
        auto using fine_sorted, buffer_sorted
    | Hp' : (?A ++ ?B) !! p = Some i |- _ =>
        apply (two_runs_stable A B p q i j);
        auto using fine_sorted, buffer_sorted
    end.
Qed.


(** *** What the index array and the counts say about the particles *)

Local Abbreviation on_fine :=
  (on_fine_patch mask_at in_buffer GetParticlePosition getParticleCell Geom).

Lemma elem_of_fine (pti : ParticleTile) (m : MaskPtr) (lev : Z) (l : list nat)
    (i : nat) :
  i ∈ fine pti m lev l <-> on_fine pti m lev i /\ i ∈ l.
Proof. unfold fine_of, on_fine_patch. rewrite list_elem_of_filter. reflexivity. Qed.

Lemma elem_of_buffer (pti : ParticleTile) (m : MaskPtr) (lev : Z)
    (l : list nat) (i : nat) :
  i ∈ buffer pti m lev l <-> ~ on_fine pti m lev i /\ i ∈ l.
Proof.
  unfold buffer_of, on_fine_patch. rewrite list_elem_of_filter.
  destruct (in_buffer (flag pti m (Geom lev) i)); simpl; tauto.
Qed.

(** When a mask leaves every listed particle on the fine patch, the fine
    part is the whole list and the buffer part is empty. *)
Lemma fine_all (pti : ParticleTile) (m : MaskPtr) (lev : Z) (l : list nat) :
  (forall i, i ∈ l -> on_fine pti m lev i) ->
  fine pti m lev l = l /\ buffer pti m lev l = [].
Proof.
  unfold fine_of, buffer_of, on_fine_patch.
  induction l as [| x l IH]; intros Hall; [split; reflexivity |].
  rewrite !filter_cons.
  assert (Hx : ~ in_buffer (flag pti m (Geom lev) x)) by (apply Hall; left).
  destruct IH as [IH1 IH2]; [intros i Hi; apply Hall; right; exact Hi |].
  rewrite IH1, IH2.
  destruct (decide (~ in_buffer (flag pti m (Geom lev) x))),
           (decide (Is_true (in_buffer (flag pti m (Geom lev) x))));
    first [tauto | split; reflexivity].
Qed.

(** The element at a position of two lists laid end to end. *)
Lemma split_position (F R : list nat) (p i : nat) :
  (F ++ R) !! p = Some i ->
  (p < length F -> i ∈ F) /\ (length F <= p -> i ∈ R).
Proof.
  intros Hp. split; intros Hlt.
  - rewrite lookup_app_l in Hp by exact Hlt.
    eapply list_elem_of_lookup_2, Hp.
  - rewrite lookup_app_r in Hp by exact Hlt.
    eapply list_elem_of_lookup_2, Hp.
Qed.

(** The index array is the fine particles of the primary mask, followed by
    a rearrangement of the others. *)
Lemma passes_pid_split (nfc nfg np : Z) (pti : ParticleTile) (lev : Z)
    (cm gm : MaskPtr) :
  exists R,
    ps_pid (passes nfc nfg np pti lev cm gm)
    = fine pti (primary_mask Wc Wg cm gm) lev (seq 0 (Z.to_nat np)) ++ R
    /\ R ≡ₚ buffer pti (primary_mask Wc Wg cm gm) lev (seq 0 (Z.to_nat np)).
Proof.
  unfold primary_mask, gather_is_primary.
  passes_cases; eexists; (split; [reflexivity |]);
    first [reflexivity | apply fine_buffer_Permutation].
Qed.

(** With two different mask objects the count of the primary kind is the
    separator of the first pass. *)
Lemma passes_primary_count (nfc nfg np : Z) (pti : ParticleTile) (lev : Z)
    (cm gm : MaskPtr) :
  (0 <= np)%Z -> cm <> gm ->
  (if gather_is_primary Wc Wg
   then ps_nfine_gather (passes nfc nfg np pti lev cm gm)
   else ps_nfine_current (passes nfc nfg np pti lev cm gm))
  = Z.of_nat (length (fine pti (primary_mask Wc Wg cm gm) lev
                        (seq 0 (Z.to_nat np)))).
Proof.
  intros Hnp Hne. rewrite PartitionPasses_closed. cbv zeta.
  unfold primary_mask, gather_is_primary.
  assert (Hgm : (gm =? gm)%nat = true) by apply Nat.eqb_refl.
  assert (Hcm : (cm =? gm)%nat = false) by (apply Nat.eqb_neq; exact Hne).
  destruct (Wc <=? Wg)%Z;
    repeat (progress (rewrite ?Hgm, ?Hcm; cbv beta iota));
    (destruct (Wc =? Wg)%Z; [reflexivity |]);
    match goal with
    | |- context [(length ?F =? ?n)%nat] =>
        destruct (Nat.eqb_spec (length F) n) as [HF | HF]
    end;
    try (cbn [ps_nfine_current ps_nfine_gather]; lia);
    destruct (0 <? _)%Z; reflexivity.
Qed.

(** With different widths, two different mask objects and a positive
    smaller width, the second pass runs whenever the first one leaves a
    particle in the primary buffer. *)
Lemma passes_second_pass (nfc nfg np : Z) (pti : ParticleTile) (lev : Z)
    (cm gm : MaskPtr) :
  Wc <> Wg -> cm <> gm -> (0 < other_width Wc Wg)%Z ->
  let pm := primary_mask Wc Wg cm gm in
  let om := other_mask Wc Wg cm gm in
  let F := fine pti pm lev (seq 0 (Z.to_nat np)) in
  let B := buffer pti pm lev (seq 0 (Z.to_nat np)) in
  let ps := passes nfc nfg np pti lev cm gm in
  if (length F =? Z.to_nat np)%nat then
    ps_pid ps = F ++ B
    /\ ps_nfine_current ps = np /\ ps_nfine_gather ps = np
  else
    ps_pid ps = F ++ fine pti om lev B ++ buffer pti om lev B
    /\ (if gather_is_primary Wc Wg then ps_nfine_current ps
        else ps_nfine_gather ps)
       = Z.of_nat (length F + length (fine pti om lev B)).
Proof.
  intros HW Hne Hw. cbv zeta. rewrite PartitionPasses_closed. cbv zeta.
  revert Hw. unfold primary_mask, other_mask, other_width, gather_is_primary.
  assert (Hgm : (gm =? gm)%nat = true) by apply Nat.eqb_refl.
  assert (Hcm : (cm =? gm)%nat = false) by (apply Nat.eqb_neq; exact Hne).
  apply Z.eqb_neq in HW. rewrite HW.
  destruct (Wc <=? Wg)%Z; intros Hw%Z.ltb_lt;
    repeat (progress (rewrite ?Hgm, ?Hcm; cbv beta iota));
    destruct (_ =? Z.to_nat np)%nat;
    rewrite ?Hw; repeat split; reflexivity.
Qed.

(** X14: whatever the masks, the widths and the counts passed in, the
    index array that the function builds (and hands to the gather) is a
    rearrangement of 0, ..., np-1: it has [np] entries, no entry twice, and
    holds exactly the particle indices below [np]. *)
Theorem partition_pid_is_permutation (nfc nfg np : Z) (pti : ParticleTile)
    (lev : Z) (cm gm : MaskPtr) :
  let pid := out_pid (partition nfc nfg np pti lev cm gm) in
  pid ≡ₚ seq 0 (Z.to_nat np)
  /\ length pid = Z.to_nat np
  /\ NoDup pid
  /\ (forall i, i ∈ pid <-> i < Z.to_nat np).
Proof.
  cbv zeta.
  destruct (partition_counts nfc nfg np pti lev cm gm) as (_ & _ & ->).
  pose proof (passes_pid_Permutation nfc nfg np pti lev cm gm) as Hp.
  repeat split.
  - exact Hp.
  - rewrite Hp. apply length_seq.
  - rewrite Hp. apply NoDup_seq.
  - rewrite Hp. intros Hi%elem_of_seq. lia.
  - rewrite Hp. intros Hi. apply elem_of_seq. lia.
Qed.

(** After the passes, with two different mask objects: a position of the
    index array lies below the count of the primary kind exactly when the
    particle listed there is outside the primary buffer. *)
Lemma passes_primary_split (nfc nfg np : Z) (pti : ParticleTile) (lev : Z)
    (cm gm : MaskPtr) (p i : nat) :
  (0 <= np)%Z -> cm <> gm ->
  ps_pid (passes nfc nfg np pti lev cm gm) !! p = Some i ->
  (Z.of_nat p
   < (if gather_is_primary Wc Wg
      then ps_nfine_gather (passes nfc nfg np pti lev cm gm)
      else ps_nfine_current (passes nfc nfg np pti lev cm gm)))%Z
  <-> on_fine pti (primary_mask Wc Wg cm gm) lev i.
Proof.
  intros Hnp Hne.
  rewrite (passes_primary_count nfc nfg np pti lev cm gm Hnp Hne).
  destruct (passes_pid_split nfc nfg np pti lev cm gm) as (R & -> & HR).
  intros Hp. apply split_position in Hp as [Hfront Hback].
  split.
  - intros Hlt. apply (elem_of_fine pti _ lev (seq 0 (Z.to_nat np))).
    apply Hfront. lia.
  - intros Hfine.
    destruct (Nat.lt_ge_cases p
                (length (fine pti (primary_mask Wc Wg cm gm) lev
                           (seq 0 (Z.to_nat np))))) as [Hlt | Hge]; [lia |].
    apply Hback in Hge. rewrite HR in Hge.
    apply elem_of_buffer in Hge as [Hnot _]. contradiction.
Qed.

(** The same for the other kind, when the second pass is not skipped and
    the buffers are nested. *)
Lemma passes_other_split (nfc nfg np : Z) (pti : ParticleTile) (lev : Z)
    (cm gm : MaskPtr) (p i : nat) :
  (0 <= np)%Z -> cm <> gm -> Wc <> Wg -> (0 < other_width Wc Wg)%Z ->
  buffers_nested mask_at in_buffer GetParticlePosition getParticleCell Geom
    Wc Wg np pti lev cm gm ->
  ps_pid (passes nfc nfg np pti lev cm gm) !! p = Some i ->
  (Z.of_nat p
   < (if gather_is_primary Wc Wg
      then ps_nfine_current (passes nfc nfg np pti lev cm gm)
      else ps_nfine_gather (passes nfc nfg np pti lev cm gm)))%Z
  <-> on_fine pti (other_mask Wc Wg cm gm) lev i.
Proof.
  intros Hnp Hne HW Hw Hnest.
  pose proof (passes_second_pass nfc nfg np pti lev cm gm HW Hne Hw) as Hps.
  cbv zeta in Hps.
  set (pm := primary_mask Wc Wg cm gm) in *.
  set (om := other_mask Wc Wg cm gm) in *.
  set (F := fine pti pm lev (seq 0 (Z.to_nat np))) in *.
  set (B := buffer pti pm lev (seq 0 (Z.to_nat np))) in *.
  assert (HF : forall j, j ∈ F -> on_fine pti om lev j).
  { intros j [Hj Hin%elem_of_seq]%elem_of_fine.
    apply Hnest; [lia | exact Hj]. }
  pose proof (length_fine_buffer pti pm lev (seq 0 (Z.to_nat np))) as HFB.
  rewrite length_seq in HFB. fold F B in HFB.
  destruct (Nat.eqb_spec (length F) (Z.to_nat np)) as [Hall | Hsome].
  - destruct Hps as (-> & -> & ->). intros Hp.
    assert (HB : B = []) by (apply length_zero_iff_nil; lia).
    rewrite HB, app_nil_r in Hp.
    pose proof (lookup_lt_Some _ _ _ Hp) as Hlt.
    apply list_elem_of_lookup_2 in Hp.
    split; [intros _; apply HF, Hp |].
    intros _. destruct (gather_is_primary Wc Wg); lia.
  - destruct Hps as (-> & ->). rewrite app_assoc. intros Hp.
    apply split_position in Hp as [Hfront Hback].
    rewrite length_app in Hfront, Hback.
    split.
    + intros Hlt.
      assert (Hin : i ∈ F ++ fine pti om lev B) by (apply Hfront; lia).
      apply elem_of_app in Hin as [Hin | Hin]; [apply HF, Hin |].
      apply elem_of_fine in Hin as [Hin _]. exact Hin.
    + intros Hfine.
      destruct (Nat.lt_ge_cases p (length F + length (fine pti om lev B)))
        as [Hlt | Hge]; [lia |].
      apply Hback in Hge. apply elem_of_buffer in Hge as [Hnot _].
      contradiction.
Qed.

(** Without its policy override, a returned count is the count of the
    passes. *)
Lemma out_primary_count (nfc nfg np : Z) (pti : ParticleTile) (lev : Z)
    (cm gm : MaskPtr) :
  primary_override Wc Wg deposit_on_main gather_from_main lev = false ->
  primary_count Wc Wg (partition nfc nfg np pti lev cm gm)
  = if gather_is_primary Wc Wg
    then ps_nfine_gather (passes nfc nfg np pti lev cm gm)
    else ps_nfine_current (passes nfc nfg np pti lev cm gm).
Proof.
  destruct (partition_counts nfc nfg np pti lev cm gm) as (Hc & Hg & _).
  unfold primary_count, primary_override. rewrite Hc, Hg.
  destruct (gather_is_primary Wc Wg); intros ->; reflexivity.
Qed.

Lemma out_other_count (nfc nfg np : Z) (pti : ParticleTile) (lev : Z)
    (cm gm : MaskPtr) :
  other_override Wc Wg deposit_on_main gather_from_main lev = false ->
  other_count Wc Wg (partition nfc nfg np pti lev cm gm)
  = if gather_is_primary Wc Wg
    then ps_nfine_current (passes nfc nfg np pti lev cm gm)
    else ps_nfine_gather (passes nfc nfg np pti lev cm gm).
Proof.
  destruct (partition_counts nfc nfg np pti lev cm gm) as (Hc & Hg & _).
  unfold other_count, other_override. rewrite Hc, Hg.
  destruct (gather_is_primary Wc Wg); intros ->; reflexivity.
Qed.

(** X15: for [np >= 0], two different mask objects and no policy override
    on the primary kind, the returned count of the primary kind splits the
    final index array: a position lies below the count exactly when the
    particle listed there is outside the primary buffer. *)
Theorem primary_count_splits (nfc nfg np : Z) (pti : ParticleTile) (lev : Z)
    (cm gm : MaskPtr) (p i : nat) :
  (0 <= np)%Z -> cm <> gm ->
  primary_override Wc Wg deposit_on_main gather_from_main lev = false ->
  out_pid (partition nfc nfg np pti lev cm gm) !! p = Some i ->
  (Z.of_nat p < primary_count Wc Wg (partition nfc nfg np pti lev cm gm))%Z
  <-> on_fine pti (primary_mask Wc Wg cm gm) lev i.
Proof.
  intros Hnp Hne Hov.
  rewrite (out_primary_count nfc nfg np pti lev cm gm Hov).
  destruct (partition_counts nfc nfg np pti lev cm gm) as (_ & _ & ->).
  apply passes_primary_split; assumption.
Qed.

(** X16: the count of the other kind.  For [np >= 0], two different mask
    objects, different widths of which the smaller is positive, no policy
    override on the other kind, and buffers that are nested (a particle
    outside the primary buffer is outside the other buffer): a position of
    the final index array lies below the returned count of the other kind
    exactly when the particle listed there is outside the other buffer. *)
Theorem other_count_splits (nfc nfg np : Z) (pti : ParticleTile) (lev : Z)
    (cm gm : MaskPtr) (p i : nat) :
  (0 <= np)%Z -> cm <> gm -> Wc <> Wg -> (0 < other_width Wc Wg)%Z ->
  other_override Wc Wg deposit_on_main gather_from_main lev = false ->
  buffers_nested mask_at in_buffer GetParticlePosition getParticleCell Geom
    Wc Wg np pti lev cm gm ->
  out_pid (partition nfc nfg np pti lev cm gm) !! p = Some i ->
  (Z.of_nat p < other_count Wc Wg (partition nfc nfg np pti lev cm gm))%Z
  <-> on_fine pti (other_mask Wc Wg cm gm) lev i.
Proof.
  intros Hnp Hne HW Hw Hov Hnest.
  rewrite (out_other_count nfc nfg np pti lev cm gm Hov).
  destruct (partition_counts nfc nfg np pti lev cm gm) as (_ & _ & ->).
  apply passes_other_split; assumption.
Qed.

(** X17: an empty tile.  With [np = 0] the function returns both counts as
    0, whatever the caller passed in, an empty index array and the tile it
    was given; it issues no gather, only the final synchronisation. *)
Theorem partition_empty_tile (nfc nfg : Z) (pti : ParticleTile) (lev : Z)
    (cm gm : MaskPtr) :
  partition nfc nfg 0 pti lev cm gm
  = mkOutcome 0 0 [] pti [EvStreamSynchronize].
Proof.
  unfold PartitionParticlesInBuffers.
  rewrite PartitionPasses_closed. cbv zeta. simpl.
  destruct (Wc =? Wg)%Z; simpl;
    destruct (override_current deposit_on_main lev),
             (override_gather gather_from_main lev); reflexivity.
Qed.

(** X18: no particle in the primary buffer.  For [np >= 0], if the primary
    mask leaves every particle of the tile on the fine patch, the other
    mask is not consulted: the index array is 0, ..., np-1 in order, each
    count is [np] unless its policy override sets it to 0, and a tile of
    [np] particles comes back equal to the one passed in, gathered or
    not. *)
Theorem partition_all_fine (nfc nfg np : Z) (pti : ParticleTile) (lev : Z)
    (cm gm : MaskPtr) :
  (0 <= np)%Z ->
  (forall i, i < Z.to_nat np ->
     on_fine pti (primary_mask Wc Wg cm gm) lev i) ->
  let out := partition nfc nfg np pti lev cm gm in
  out_pid out = seq 0 (Z.to_nat np)
  /\ out_nfine_current out
     = (if override_current deposit_on_main lev then 0 else np)%Z
  /\ out_nfine_gather out
     = (if override_gather gather_from_main lev then 0 else np)%Z
  /\ (tile_size (Z.to_nat np) pti -> out_tile out = pti).
Proof.
  intros Hnp Hall out.
  destruct (fine_all pti (primary_mask Wc Wg cm gm) lev (seq 0 (Z.to_nat np)))
    as [HF HB]; [intros i Hi%elem_of_seq; apply Hall; lia |].
  assert (Hps : passes nfc nfg np pti lev cm gm
                = mkPasses np np (seq 0 (Z.to_nat np)) (Z.to_nat np) None).
  { rewrite PartitionPasses_closed. cbv zeta.
    unfold primary_mask, gather_is_primary in HF, HB.
    rewrite HF, HB, app_nil_r, length_seq, Nat.eqb_refl, Z2Nat.id by exact Hnp.
    destruct (Wc =? Wg)%Z; reflexivity. }
  subst out. unfold PartitionParticlesInBuffers. rewrite Hps.
  cbn [ps_nfine_current ps_nfine_gather ps_pid].
  destruct (must_reorder _ _ np);
    cbn [out_pid out_nfine_current out_nfine_gather out_tile];
    repeat split; try reflexivity.
  intros Hsize. apply gatherParticles_id, Hsize.
Qed.

(** X19: no particle is lost, doubled or mixed up.  For a tile of [np]
    particles, whether or not the function reorders it, the tile that comes
    back has [np] entries in every attribute array, and each of its arrays
    (real attributes, integer attributes, ids) is a rearrangement of the
    same array of the tile passed in. *)
Theorem partition_keeps_particles (nfc nfg np : Z) (pti : ParticleTile)
    (lev : Z) (cm gm : MaskPtr) :
  tile_size (Z.to_nat np) pti ->
  tile_size (Z.to_nat np) (out_tile (partition nfc nfg np pti lev cm gm))
  /\ same_particles pti (out_tile (partition nfc nfg np pti lev cm gm)).
Proof.
  intros Hsize. unfold PartitionParticlesInBuffers.
  destruct (must_reorder _ _ _); cbn [out_tile].
  - split; [apply gatherParticles_size |].
    apply gatherParticles_same_particles; [exact Hsize |].
    apply passes_pid_Permutation.
  - split; [exact Hsize | apply same_particles_refl].
Qed.

(** X20: the policy overrides force a reorder.  On a refined level
    ([lev > 0]) with deposition or gather on the main grid, the count of
    that kind comes back 0 whatever the masks say, and a tile with
    [np > 0] is gathered once along the index array, also when the
    partition left every particle at its place. *)
Theorem override_forces_reorder (nfc nfg np : Z) (pti : ParticleTile)
    (lev : Z) (cm gm : MaskPtr) :
  (0 < np)%Z ->
  override_current deposit_on_main lev = true
  \/ override_gather gather_from_main lev = true ->
  let out := partition nfc nfg np pti lev cm gm in
  (override_current deposit_on_main lev = true -> out_nfine_current out = 0%Z)
  /\ (override_gather gather_from_main lev = true ->
      out_nfine_gather out = 0%Z)
  /\ gathers (out_trace out) = [out_pid out]
  /\ out_tile out = gatherParticles pti (Z.to_nat np) (out_pid out).
Proof.
  intros Hnp Hov out. subst out. unfold PartitionParticlesInBuffers.
  set (ps := PartitionPasses _ _ _ _ _ _ _ _ _ _ _ _ _ _).
  assert (Hre : must_reorder
                  (if override_current deposit_on_main lev then 0%Z
                   else ps_nfine_current ps)
                  (if override_gather gather_from_main lev then 0%Z
                   else ps_nfine_gather ps) np = true).
  { unfold must_reorder. apply orb_true_iff.
    destruct Hov as [-> | ->]; [left | right];
      apply negb_true_iff, Z.eqb_neq; lia. }
  rewrite Hre. cbn [out_nfine_current out_nfine_gather out_trace out_pid
                    out_tile gathers omap].
  repeat split; intros ->; reflexivity.
Qed.

(** X21: the two counts are ordered.  For [np >= 0], two different mask
    objects, a caller that passes [np] for both counts (as the callers do)
    and no policy override on the other kind: the returned count of the
    primary kind is at most the returned count of the other kind, which is
    at most [np]; neither is negative. *)
Theorem counts_ordered (np : Z) (pti : ParticleTile) (lev : Z)
    (cm gm : MaskPtr) :
  (0 <= np)%Z -> cm <> gm ->
  other_override Wc Wg deposit_on_main gather_from_main lev = false ->
  let out := partition np np np pti lev cm gm in
  (0 <= primary_count Wc Wg out <= other_count Wc Wg out)%Z
  /\ (other_count Wc Wg out <= np)%Z.
Proof.
  intros Hnp Hne Hov out.
  destruct (partition_counts np np np pti lev cm gm) as (Hc & Hg & _).
  fold out in Hc, Hg.
  pose proof (passes_primary_count np np np pti lev cm gm Hnp Hne) as Hprim.
  revert Hov Hprim. unfold primary_count, other_count, other_override.
  rewrite Hc, Hg. clear Hc Hg out.
  rewrite PartitionPasses_closed. cbv zeta.
  unfold primary_mask, gather_is_primary.
  assert (Hgm : (gm =? gm)%nat = true) by apply Nat.eqb_refl.
  assert (Hcm : (cm =? gm)%nat = false) by (apply Nat.eqb_neq; exact Hne).
  pose proof (length_fine_le pti gm lev (seq 0 (Z.to_nat np))) as HF1.
  pose proof (length_fine_le pti cm lev (seq 0 (Z.to_nat np))) as HF2.
  pose proof (length_fine_buffer pti gm lev (seq 0 (Z.to_nat np))) as HB1.
  pose proof (length_fine_buffer pti cm lev (seq 0 (Z.to_nat np))) as HB2.
  pose proof (length_fine_le pti cm lev
                (buffer pti gm lev (seq 0 (Z.to_nat np)))) as HS1.
  pose proof (length_fine_le pti gm lev
                (buffer pti cm lev (seq 0 (Z.to_nat np)))) as HS2.
  rewrite length_seq in *.
  destruct (Wc <=? Wg)%Z;
    repeat (progress (rewrite ?Hgm, ?Hcm; cbv beta iota));
    intros -> Hprim;
    destruct (override_gather gather_from_main lev),
             (override_current deposit_on_main lev);
    try discriminate;
    repeat match type of Hprim with
           | context [if ?b then _ else _] => destruct b eqn:?
           end;
    repeat match goal with
           | |- context [if ?b then _ else _] => destruct b eqn:?
           end;
    cbn [ps_nfine_current ps_nfine_gather] in *; lia.
Qed.


(** *** Disabled kinds and the two-level partition *)



(** Where the second pass can run (equal widths, or a positive smaller
    width), the passes compute what section 4.5 says, counts included. *)
Lemma passes_match_spec (nfc nfg np : Z) (pti : ParticleTile) (lev : Z)
    (cm gm : MaskPtr) :
  (0 <= np)%Z -> cm <> gm ->
  Wc = Wg \/ (0 < other_width Wc Wg)%Z ->
  passes_result (passes nfc nfg np pti lev cm gm)
  = spec_TwoLevelPartition mask_at in_buffer GetParticlePosition
      getParticleCell Geom Wc Wg np pti lev cm gm.
Proof.
  intros Hnp Hne.
  rewrite PartitionPasses_closed. cbv zeta.
  unfold spec_TwoLevelPartition, passes_result, other_width,
    primary_mask, other_mask, gather_is_primary.
  set (n := Z.to_nat np).
  assert (Hn : np = Z.of_nat n) by (unfold n; lia).
  assert (Hgm : (gm =? gm)%nat = true) by apply Nat.eqb_refl.
  assert (Hcm : (cm =? gm)%nat = false) by (apply Nat.eqb_neq; exact Hne).
  destruct (Wc <=? Wg)%Z eqn:Hle;
    repeat (progress (rewrite ?Hgm, ?Hcm; cbv beta iota));
    set (F := fine_of _ _ _ _ _ _ _ _ (seq 0 n));
    set (B := buffer_of _ _ _ _ _ _ _ _ (seq 0 n));
    intros Hw;
    (destruct (Z.eqb_spec Wc Wg) as [HW | HW]; [reflexivity |]);
    (destruct Hw as [Hw | Hw]; [contradiction |]);
    (destruct (Nat.eqb_spec (length F) n) as [HF | HF];
     [ rewrite (proj2 (Z.eqb_eq _ _)) by lia; reflexivity
     | rewrite (proj2 (Z.eqb_neq _ _)) by lia;
       rewrite (proj2 (Z.ltb_lt _ _) Hw);
       cbn [ps_nfine_current ps_nfine_gather ps_pid];
       rewrite Nat2Z.inj_add; reflexivity ]).
Qed.

(** The count section 4.5 gives the primary kind is [n_fine]. *)
Lemma spec_primary_count (np : Z) (pti : ParticleTile) (lev : Z)
    (cm gm : MaskPtr) :
  (0 <= np)%Z ->
  let spec :=
    spec_TwoLevelPartition mask_at in_buffer GetParticlePosition
      getParticleCell Geom Wc Wg np pti lev cm gm in
  (if gather_is_primary Wc Wg then spec.1.2 else spec.1.1)
  = Z.of_nat (length (fine pti (primary_mask Wc Wg cm gm) lev
                        (seq 0 (Z.to_nat np)))).
Proof.
  intros Hnp. cbv zeta. unfold spec_TwoLevelPartition.
  set (F := fine pti (primary_mask Wc Wg cm gm) lev (seq 0 (Z.to_nat np))).
  destruct (Wc =? Wg)%Z; [destruct (gather_is_primary Wc Wg); reflexivity |].
  destruct (Z.eqb_spec (Z.of_nat (length F)) np) as [HF | HF].
  - destruct (gather_is_primary Wc Wg); cbn [fst snd]; lia.
  - destruct (gather_is_primary Wc Wg); reflexivity.
Qed.

(** With disabled kinds that have no buffer, the index array of the passes
    is the one of section 4.5, also where the second pass is skipped: it
    would move nothing. *)
Lemma passes_pid_matches_spec (nfc nfg np : Z) (pti : ParticleTile) (lev : Z)
    (cm gm : MaskPtr) :
  (0 <= np)%Z -> cm <> gm ->
  disabled_masks_empty mask_at in_buffer GetParticlePosition getParticleCell
    Geom Wc Wg np pti lev cm gm ->
  ps_pid (passes nfc nfg np pti lev cm gm)
  = (spec_TwoLevelPartition mask_at in_buffer GetParticlePosition
       getParticleCell Geom Wc Wg np pti lev cm gm).2.
Proof.
  intros Hnp Hne [Hdc Hdg].
  destruct (Z.eq_dec Wc Wg) as [HW | HW];
    [rewrite <- (passes_match_spec nfc nfg np pti lev cm gm Hnp Hne
                   (or_introl HW)); reflexivity |].
  destruct (Z.lt_ge_cases 0 (other_width Wc Wg)) as [Hw | Hw];
    [rewrite <- (passes_match_spec nfc nfg np pti lev cm gm Hnp Hne
                   (or_intror Hw)); reflexivity |].
  assert (Hother : forall i, i < Z.to_nat np ->
                     on_fine pti (other_mask Wc Wg cm gm) lev i).
  { revert Hw. unfold other_width, other_mask.
    destruct (gather_is_primary Wc Wg); intros Hw; [apply Hdc | apply Hdg];
      exact Hw. }
  rewrite PartitionPasses_closed. cbv zeta.
  unfold spec_TwoLevelPartition.
  revert Hw Hother.
  unfold other_width, primary_mask, other_mask, gather_is_primary.
  set (n := Z.to_nat np).
  assert (Hn : np = Z.of_nat n) by (unfold n; lia).
  assert (Hgm : (gm =? gm)%nat = true) by apply Nat.eqb_refl.
  assert (Hcm : (cm =? gm)%nat = false) by (apply Nat.eqb_neq; exact Hne).
  rewrite (proj2 (Z.eqb_neq Wc Wg) HW).
  destruct (Wc <=? Wg)%Z eqn:Hle;
    repeat (progress (rewrite ?Hgm, ?Hcm; cbv beta iota));
    set (F := fine_of _ _ _ _ _ _ _ _ (seq 0 n));
    set (B := buffer_of _ _ _ _ _ _ _ _ (seq 0 n));
    intros Hw Hother;
    rewrite (proj2 (Z.ltb_ge _ _) Hw);
    (destruct (Nat.eqb_spec (length F) n) as [HF | HF];
     [ rewrite (proj2 (Z.eqb_eq _ _)) by lia; reflexivity
     | rewrite (proj2 (Z.eqb_neq _ _)) by lia ]);
    match goal with
    | |- context [fine pti ?om lev B] =>
        destruct (fine_all pti om lev B) as [HfB HbB];
        [ intros i [_ Hi%elem_of_seq]%elem_of_buffer; apply Hother; lia
        | rewrite HfB, HbB, app_nil_r ]
    end;
    reflexivity.
Qed.

(** C4.  For [np >= 0], two different mask objects and disabled kinds
    without buffer (section 4.4), the passes follow the algorithm of section
    4.5.  The kind of larger width is primary, a tie going to the gather
    buffer; the first pass partitions all indices stably by the primary
    flag, giving [n_fine], and nothing that follows changes the first
    [n_fine] entries.  The index array after the passes is the one of the
    two-level partition: with different widths and a non-empty back segment,
    that segment alone is stably partitioned against the other mask (for a
    disabled other kind the pass is skipped, and it would move nothing).
    The count of the primary kind is [n_fine], in the code as in the
    algorithm.  Where the second pass can run (equal widths or a positive
    smaller width), the count of the other kind agrees as well. *)
Theorem passes_follow_two_level_partition (nfine_current nfine_gather np : Z)
    (pti : ParticleTile) (lev : Z) (current_masks gather_masks : MaskPtr) :
  (0 <= np)%Z -> current_masks <> gather_masks ->
  disabled_masks_empty mask_at in_buffer GetParticlePosition getParticleCell
    Geom Wc Wg np pti lev current_masks gather_masks ->
  let ps :=
    PartitionPasses mask_at in_buffer GetParticlePosition getParticleCell Geom
      Wc Wg nfine_current nfine_gather np pti lev current_masks gather_masks in
  let spec :=
    spec_TwoLevelPartition mask_at in_buffer GetParticlePosition
      getParticleCell Geom Wc Wg np pti lev current_masks gather_masks in
  let front :=
    fine_of mask_at in_buffer GetParticlePosition getParticleCell Geom pti
      (primary_mask Wc Wg current_masks gather_masks) lev
      (seq 0 (Z.to_nat np)) in
  (ps_sep ps = length front /\ take (length front) (ps_pid ps) = front)
  /\ ps_pid ps = spec.2
  /\ (if gather_is_primary Wc Wg then ps_nfine_gather ps
      else ps_nfine_current ps) = Z.of_nat (length front)
  /\ (if gather_is_primary Wc Wg then spec.1.2 else spec.1.1)
     = Z.of_nat (length front)
  /\ (Wc = Wg \/ (0 < other_width Wc Wg)%Z -> passes_result ps = spec).
Proof.
  intros Hnp Hne Hdis ps spec front.
  split; [apply passes_front |].
  split; [apply passes_pid_matches_spec; assumption |].
  split; [apply passes_primary_count; assumption |].
  split; [apply spec_primary_count; assumption |].
  apply passes_match_spec; assumption.
Qed.

(** *** The reordered tile *)

(** When a mask leaves as many particles on the fine patch as the list has,
    it leaves them all. *)
Lemma fine_full (pti : ParticleTile) (m : MaskPtr) (lev : Z) (l : list nat) :
  length (fine pti m lev l) = length l ->
  fine pti m lev l = l /\ buffer pti m lev l = [].
Proof.
  intros Hlen. apply fine_all. intros i Hi Hin.
  pose proof (length_fine_buffer pti m lev l) as HFB.
  assert (HB : buffer pti m lev l = [])
    by (apply length_zero_iff_nil; lia).
  assert (Hmem : i ∈ buffer pti m lev l).
  { apply elem_of_buffer. split; [| exact Hi].
    unfold on_fine_patch. tauto. }
  rewrite HB in Hmem. apply elem_of_nil in Hmem. exact Hmem.
Qed.

(** Slot [k] of the returned tile holds the position of the particle that
    the index array lists at [k], whether or not the tile was gathered:
    when it was not, the index array is 0, ..., np-1 in order. *)
Lemma out_tile_positions (nfc nfg np : Z) (pti : ParticleTile) (lev : Z)
    (cm gm : MaskPtr) (k j : nat) :
  (0 <= np)%Z -> cm <> gm ->
  positions_follow_gather GetParticlePosition (Z.to_nat np) pti ->
  out_pid (partition nfc nfg np pti lev cm gm) !! k = Some j ->
  GetParticlePosition (out_tile (partition nfc nfg np pti lev cm gm)) k
  = GetParticlePosition pti j.
Proof.
  intros Hnp Hne Hpos.
  pose proof (passes_pid_Permutation nfc nfg np pti lev cm gm) as Hperm.
  pose proof (passes_primary_count nfc nfg np pti lev cm gm Hnp Hne) as Hprim.
  destruct (passes_pid_split nfc nfg np pti lev cm gm) as (R & Hpid & HR).
  revert Hprim. unfold PartitionParticlesInBuffers.
  set (ps := PartitionPasses _ _ _ _ _ _ _ _ _ _ _ _ _ _) in *.
  set (F := fine pti (primary_mask Wc Wg cm gm) lev (seq 0 (Z.to_nat np))) in *.
  intros Hprim.
  destruct (must_reorder _ _ np) eqn:Hre; cbn [out_pid out_tile]; intros Hk.
  - apply Hpos with (inds := ps_pid ps); [exact Hk | |].
    + apply lookup_lt_Some in Hk. rewrite Hperm, length_seq in Hk. exact Hk.
    + apply list_elem_of_lookup_2 in Hk. rewrite Hperm in Hk.
      apply elem_of_seq in Hk. lia.
  - unfold must_reorder in Hre.
    apply orb_false_iff in Hre as [Hc%negb_false_iff%Z.eqb_eq
                                     Hg%negb_false_iff%Z.eqb_eq].
    assert (Hlen : length (ps_pid ps) = Z.to_nat np)
      by (rewrite Hperm; apply length_seq).
    pose proof (lookup_lt_Some _ _ _ Hk) as Hklt.
    assert (Hfull : length F = Z.to_nat np).
    { pose proof (length_fine_le pti (primary_mask Wc Wg cm gm) lev
                    (seq 0 (Z.to_nat np))) as Hle.
      rewrite length_seq in Hle. fold F in Hle.
      destruct (gather_is_primary Wc Wg),
               (override_current deposit_on_main lev),
               (override_gather gather_from_main lev); lia. }
    destruct (fine_full pti (primary_mask Wc Wg cm gm) lev
                (seq 0 (Z.to_nat np))) as [HF HB];
      [rewrite length_seq; exact Hfull |].
    fold F in HF. rewrite HB in HR. apply Permutation_nil_r in HR.
    rewrite Hpid, HF, HR, app_nil_r in Hk.
    apply lookup_seq in Hk as [-> _]. reflexivity.
Qed.

(** X22: what the caller finds in the tile.  Let [GetParticlePosition] read
    a particle's position from its slot (so that positions follow a gather),
    [np >= 0], and the two masks be different objects.  Then in the tile
    that comes back, slot [k < np] lies below the returned count of the
    primary kind exactly when the particle now in that slot is outside the
    primary buffer (without policy override on that kind); and, when the
    widths differ, the smaller is positive and the buffers are nested, it
    lies below the returned count of the other kind exactly when that
    particle is outside the other buffer (without policy override on that
    kind). *)
Theorem reordered_tile_split (nfc nfg np : Z) (pti : ParticleTile) (lev : Z)
    (cm gm : MaskPtr) (k : nat) :
  (0 <= np)%Z -> cm <> gm ->
  positions_follow_gather GetParticlePosition (Z.to_nat np) pti ->
  k < Z.to_nat np ->
  let out := partition nfc nfg np pti lev cm gm in
  (primary_override Wc Wg deposit_on_main gather_from_main lev = false ->
   (Z.of_nat k < primary_count Wc Wg out)%Z
   <-> on_fine (out_tile out) (primary_mask Wc Wg cm gm) lev k)
  /\
  (Wc <> Wg -> (0 < other_width Wc Wg)%Z ->
   other_override Wc Wg deposit_on_main gather_from_main lev = false ->
   buffers_nested mask_at in_buffer GetParticlePosition getParticleCell Geom
     Wc Wg np pti lev cm gm ->
   (Z.of_nat k < other_count Wc Wg out)%Z
   <-> on_fine (out_tile out) (other_mask Wc Wg cm gm) lev k).
Proof.
  intros Hnp Hne Hpos Hk out.
  assert (Hsome : is_Some (out_pid out !! k)).
  { apply lookup_lt_is_Some. subst out.
    destruct (partition_counts nfc nfg np pti lev cm gm) as (_ & _ & ->).
    rewrite (passes_pid_Permutation nfc nfg np pti lev cm gm), length_seq.
    exact Hk. }
  destruct Hsome as [j Hj].
  pose proof (out_tile_positions nfc nfg np pti lev cm gm k j Hnp Hne Hpos Hj)
    as Htile.
  fold out in Htile.
  assert (Hflag : forall m, on_fine (out_tile out) m lev k
                            <-> on_fine pti m lev j).
  { intros m. unfold on_fine_patch, buffer_flag. rewrite Htile. reflexivity. }
  subst out.
  destruct (partition_counts nfc nfg np pti lev cm gm) as (_ & _ & Hpid).
  rewrite Hpid in Hj. split.
  - intros Hov. rewrite Hflag.
    rewrite (out_primary_count nfc nfg np pti lev cm gm Hov).
    apply passes_primary_split; assumption.
  - intros HW Hw Hov Hnest. rewrite Hflag.
    rewrite (out_other_count nfc nfg np pti lev cm gm Hov).
    apply passes_other_split; assumption.
Qed.

End Facts.

(** *** Runs on the line *)

Section Examples.
Local Open Scope Z_scope.

(** Four particles in cells 0 to 3, the gather buffer (width 2) covers the
    cells 1 and 3, the deposition buffer (width 1) the cell 3. *)
Lemma fine_counts_in_range_witness :
  (0 <= out_nfine_current
          (line_partition [3] [1; 3] 1 2 false false 0 4 4 [0; 1; 2; 3]) <= 4)%Z
  /\ (0 <= out_nfine_gather
          (line_partition [3] [1; 3] 1 2 false false 0 4 4 [0; 1; 2; 3]) <= 4)%Z.
Proof.
  apply (fine_counts_in_range (line_masks [3] [1; 3])%Z
           line_in_buffer line_position line_cell (fun _ => tt) 1 2 false false
           4 4 4 (line_tile [0; 1; 2; 3]%Z) 0 1%nat 2%nat); lia.
Defined.




(** With both widths zero the first pass still runs, against the gather
    mask: on a mask that flags a cell although its kind is disabled, the
    counts follow the mask. *)
Lemma zero_width_mask_still_read :
  out_nfine_gather (line_partition [] [0] 0 0 false false 0 1 1 [0]) = 0%Z.
Proof. reflexivity. Qed.

(** The defect of C1 on counts in range: with a particle in the gather
    buffer, the count of the deposition kind (width 0), passed in as 0,
    comes back 0 although no particle is in the deposition buffer. *)
Lemma zero_width_count_is_callers_value :
  out_nfine_current (line_partition [] [0] 0 1 false false 0 0 1 [0]) = 0%Z.
Proof. reflexivity. Qed.

(** Equal widths, both overrides in force on level 1. *)
Lemma equal_widths_equal_counts_witness :
  out_nfine_current
    (line_partition [3] [1; 3] 2 2 true true 1 4 4 [0; 1; 2; 3])
  = out_nfine_gather
      (line_partition [3] [1; 3] 2 2 true true 1 4 4 [0; 1; 2; 3]).
Proof.
  apply (equal_widths_equal_counts (line_masks [3] [1; 3])%Z
           line_in_buffer line_position line_cell (fun _ => tt) 2 2 true true
           4 4 4 (line_tile [0; 1; 2; 3]%Z) 1 1%nat 2%nat);
    reflexivity.
Defined.

(** C3 as stated fails: equal widths, one particle on the fine patch, level
    1, deposition on the main grid only but gather on the fine patch: the
    counts returned are 0 and 1. *)
Lemma equal_widths_unequal_counts :
  out_nfine_current (line_partition [] [] 1 1 true false 1 1 1 [0])
  <> out_nfine_gather (line_partition [] [] 1 1 true false 1 1 1 [0]).
Proof. vm_compute. discriminate. Qed.

(** Widths 0 and 1, the deposition kind disabled and its mask empty, two
    of three particles in the gather buffer: the second pass is skipped and
    the index array is the one of the two-level partition.  Widths 1 and 2:
    both passes run and give the two-level partition, counts included. *)
Lemma passes_follow_two_level_partition_witness :
  ps_pid (line_passes [] [0; 1] 0 1 3 3 [0; 1; 2])
  = (line_spec [] [0; 1] 0 1 [0; 1; 2]).2
  /\ passes_result (line_passes [3] [1; 3] 1 2 4 4 [0; 1; 2; 3])
     = line_spec [3] [1; 3] 1 2 [0; 1; 2; 3].
Proof.
  split.
  - refine (proj1 (proj2
              (passes_follow_two_level_partition (line_masks [] [0; 1])%Z
                 line_in_buffer line_position line_cell (fun _ => tt) 0 1
                 3 3 3 (line_tile [0; 1; 2]%Z) 0 1%nat 2%nat
                 ltac:(lia) ltac:(lia) _))).
    split; [| intros Hw; lia].
    intros _ i Hi.
    do 3 (destruct i as [| i]; [vm_compute; tauto |]).
    vm_compute in Hi. lia.
  - refine (proj2 (proj2 (proj2 (proj2
              (passes_follow_two_level_partition (line_masks [3] [1; 3])%Z
                 line_in_buffer line_position line_cell (fun _ => tt) 1 2
                 4 4 4 (line_tile [0; 1; 2; 3]%Z) 0 1%nat 2%nat
                 ltac:(lia) ltac:(lia) _)))) _).
    + split; intros Hw; lia.
    + right. reflexivity.
Defined.

(** Outside of what section 4.4 allows: the deposition kind is disabled
    (width 0) but its mask flags the cell of the first particle.  Both
    particles are in the gather buffer (width 1); the back segment is not
    partitioned again, so the index array stays [0; 1] where the two-level
    partition would give [1; 0]. *)
Lemma second_pass_skipped_for_width_zero :
  passes_result (line_passes [0] [0; 1] 0 1 2 2 [0; 1])
  <> line_spec [0] [0; 1] 0 1 [0; 1].
Proof. vm_compute. discriminate. Qed.

(** The same setting: the index array is [0; 2; 1; 3] with separators 2 and
    3; the positions 0 and 1 lie in the first segment and hold the particles
    0 and 2. *)
Lemma partition_passes_stable_witness :
  ps_pid (line_passes [3] [1; 3] 1 2 4 4 [0; 1; 2; 3]) = [0; 2; 1; 3]%nat
  /\ separators (line_passes [3] [1; 3] 1 2 4 4 [0; 1; 2; 3]) = [2; 3]%nat
  /\ (0 < 1)%nat.
Proof.
  split; [reflexivity |]. split; [reflexivity |].
  apply (partition_passes_stable (line_masks [3] [1; 3])%Z
           line_in_buffer line_position line_cell (fun _ => tt) 1 2
           4 4 4 (line_tile [0; 1; 2; 3]%Z) 0 1%nat 2%nat 0%nat 1%nat 0%nat 2%nat);
    [reflexivity | reflexivity | lia |].
  repeat constructor; vm_compute; lia.
Defined.


(** The setting of the first run above: the gather buffer (width 2) is
    primary and covers the cells 1 and 3, the deposition buffer (width 1)
    the cell 3; the index array is [0; 2; 1; 3], the counts are 3 and 2. *)
Lemma primary_count_splits_witness :
  (Z.of_nat 1
   < primary_count 1 2
       (line_partition [3] [1; 3] 1 2 false false 0 4 4 [0; 1; 2; 3]))%Z
  <-> on_fine_patch (line_masks [3] [1; 3])%Z line_in_buffer line_position
        line_cell (fun _ => tt) (line_tile [0; 1; 2; 3]%Z)
        (primary_mask 1 2 1%nat 2%nat) 0 2%nat.
Proof.
  apply (primary_count_splits (line_masks [3] [1; 3])%Z
           line_in_buffer line_position line_cell (fun _ => tt) 1 2 false false
           4 4 4 (line_tile [0; 1; 2; 3]%Z) 0 1%nat 2%nat 1%nat 2%nat);
    [lia | lia | reflexivity | reflexivity].
Defined.

(** Position 2 of the index array holds particle 1, which is in the gather
    buffer but outside the deposition buffer: 2 < 3. *)
Lemma other_count_splits_witness :
  (Z.of_nat 2
   < other_count 1 2
       (line_partition [3] [1; 3] 1 2 false false 0 4 4 [0; 1; 2; 3]))%Z
  <-> on_fine_patch (line_masks [3] [1; 3])%Z line_in_buffer line_position
        line_cell (fun _ => tt) (line_tile [0; 1; 2; 3]%Z)
        (other_mask 1 2 1%nat 2%nat) 0 1%nat.
Proof.
  apply (other_count_splits (line_masks [3] [1; 3])%Z
           line_in_buffer line_position line_cell (fun _ => tt) 1 2 false false
           4 4 4 (line_tile [0; 1; 2; 3]%Z) 0 1%nat 2%nat 2%nat 1%nat);
    [lia | lia | lia | reflexivity | reflexivity | | reflexivity].
  intros i Hi.
  do 4 (destruct i as [| i]; [vm_compute; tauto |]).
  vm_compute in Hi. lia.
Defined.

(** No cell is flagged: the four particles stay where they are. *)
Lemma partition_all_fine_witness :
  out_pid (line_partition [] [] 1 2 false false 0 4 4 [0; 1; 2; 3])
  = [0; 1; 2; 3]%nat
  /\ out_tile (line_partition [] [] 1 2 true false 1 4 4 [0; 1; 2; 3])
     = line_tile [0; 1; 2; 3].
Proof.
  split.
  - apply (partition_all_fine (line_masks [] [])%Z
             line_in_buffer line_position line_cell (fun _ => tt) 1 2
             false false 4 4 4 (line_tile [0; 1; 2; 3]%Z) 0 1%nat 2%nat).
    + lia.
    + intros i Hi. vm_compute. tauto.
  - apply (partition_all_fine (line_masks [] [])%Z
             line_in_buffer line_position line_cell (fun _ => tt) 1 2
             true false 4 4 4 (line_tile [0; 1; 2; 3]%Z) 1 1%nat 2%nat).
    + lia.
    + intros i Hi. vm_compute. tauto.
    + repeat constructor.
Defined.

Lemma partition_keeps_particles_witness :
  same_particles (line_tile [0; 1; 2; 3])
    (out_tile (line_partition [3] [1; 3] 1 2 false false 0 4 4 [0; 1; 2; 3])).
Proof.
  apply (partition_keeps_particles (line_masks [3] [1; 3])%Z
           line_in_buffer line_position line_cell (fun _ => tt) 1 2 false false
           4 4 4 (line_tile [0; 1; 2; 3]%Z) 0 1%nat 2%nat).
  repeat constructor.
Defined.

(** Level 1 with deposition on the main grid, no cell flagged: the index
    array is the identity and the tile is gathered all the same. *)
Lemma override_forces_reorder_witness :
  gathers (out_trace (line_partition [] [] 1 2 true false 1 4 4 [0; 1; 2; 3]))
  = [[0; 1; 2; 3]%nat].
Proof.
  apply (override_forces_reorder (line_masks [] [])%Z
           line_in_buffer line_position line_cell (fun _ => tt) 1 2 true false
           4 4 4 (line_tile [0; 1; 2; 3]%Z) 1 1%nat 2%nat);
    [lia | left; reflexivity].
Defined.

Lemma counts_ordered_witness :
  (0 <= primary_count 1 2
          (line_partition [3] [1; 3] 1 2 false false 0 4 4 [0; 1; 2; 3])
     <= other_count 1 2
          (line_partition [3] [1; 3] 1 2 false false 0 4 4 [0; 1; 2; 3]))%Z
  /\ (other_count 1 2
        (line_partition [3] [1; 3] 1 2 false false 0 4 4 [0; 1; 2; 3])
      <= 4)%Z.
Proof.
  apply (counts_ordered (line_masks [3] [1; 3])%Z
           line_in_buffer line_position line_cell (fun _ => tt) 1 2 false false
           4 (line_tile [0; 1; 2; 3]%Z) 0 1%nat 2%nat);
    [lia | lia | reflexivity].
Defined.


(** On the line the position of a particle is read from its slot.  Slot 2
    of the reordered tile holds the former particle 1: in the gather buffer
    (2 is not below the gather count 2), outside the deposition buffer (2 is
    below the deposition count 3). *)
Lemma reordered_tile_split_witness :
  ((Z.of_nat 2
    < primary_count 1 2
        (line_partition [3] [1; 3] 1 2 false false 0 4 4 [0; 1; 2; 3]))%Z
   <-> on_fine_patch (line_masks [3] [1; 3])%Z line_in_buffer line_position
         line_cell (fun _ => tt)
         (out_tile
            (line_partition [3] [1; 3] 1 2 false false 0 4 4 [0; 1; 2; 3]))
         (primary_mask 1 2 1%nat 2%nat) 0 2%nat)
  /\
  ((Z.of_nat 2
    < other_count 1 2
        (line_partition [3] [1; 3] 1 2 false false 0 4 4 [0; 1; 2; 3]))%Z
   <-> on_fine_patch (line_masks [3] [1; 3])%Z line_in_buffer line_position
         line_cell (fun _ => tt)
         (out_tile
            (line_partition [3] [1; 3] 1 2 false false 0 4 4 [0; 1; 2; 3]))
         (other_mask 1 2 1%nat 2%nat) 0 2%nat).
Proof.
  pose proof (reordered_tile_split (line_masks [3] [1; 3])%Z
                line_in_buffer line_position line_cell (fun _ => tt) 1 2
                false false 4 4 4 (line_tile [0; 1; 2; 3]%Z) 0 1%nat 2%nat
                2%nat) as H.
  destruct H as [Hprimary Hother].
  - lia.
  - lia.
  - intros inds k j Hj Hk Hjn. unfold line_position, gatherParticles.
    cbn [m_rdata line_tile fmap list_fmap lookup list_lookup mbind option_bind].
    unfold gather_array. rewrite list_lookup_fmap.
    rewrite lookup_seq_lt by exact Hk. cbn [fmap option_fmap option_map].
    rewrite (list_lookup_total_correct _ _ _ Hj).
    do 4 (destruct j as [| j]; [reflexivity |]).
    vm_compute in Hjn. lia.
  - vm_compute. lia.
  - split.
    + apply Hprimary. reflexivity.
    + apply Hother; [lia | reflexivity | reflexivity |].
      intros i Hi.
      do 4 (destruct i as [| i]; [vm_compute; tauto |]).
      vm_compute in Hi. lia.
Defined.

End Examples.

End SortingFacts.
